(** * mosaico backend: export (zip) and upload pipelines

    A shallow embedding of [src/server/download.js] and
    [src/server/filemanager/index.js].

    JavaScript strings are sequences of UTF-16 code units; they are modelled
    as [list N].  Event-driven code (the [request] and [archiver] callbacks,
    the [formidable] events, promises) is modelled by explicit states and by
    handlers that are run over a trace of events. *)

From Stdlib Require Import NArith Lia String Ascii.
From stdpp Require Import gmap strings list.

(** ** JavaScript strings *)

Module JS.

(** A string literal as code units. *)
Definition js (s : string) : list N := N_of_ascii <$> list_ascii_of_string s.

Definition code (a : ascii) : N := N_of_ascii a.

Definition in_range (lo hi c : N) : bool := (lo <=? c)%N && (c <=? hi)%N.

Definition is_digit (c : N) : bool := in_range 48 57 c.
Definition is_lower (c : N) : bool := in_range 97 122 c.
Definition is_upper (c : N) : bool := in_range 65 90 c.
Definition is_alnum (c : N) : bool := is_digit c || is_lower c || is_upper c.

(** [String.prototype.toLowerCase] on the ASCII letters. *)
Definition to_lower (c : N) : N := if is_upper c then (c + 32)%N else c.

(** White space and line terminators: what [trim] strips and [\s] matches. *)
Definition is_space (c : N) : bool :=
  in_range 9 13 c || (c =? 32)%N || (c =? 0xA0)%N || (c =? 0x1680)%N
  || in_range 0x2000 0x200A c || (c =? 0x2028)%N || (c =? 0x2029)%N
  || (c =? 0x202F)%N || (c =? 0x205F)%N || (c =? 0x3000)%N || (c =? 0xFEFF)%N.

(** [p] is a prefix of [s], as a test. *)
Fixpoint starts_with (p s : list N) : bool :=
  match p, s with
  | [], _ => true
  | a :: p', b :: s' => (a =? b)%N && starts_with p' s'
  | _ :: _, [] => false
  end.

(** [String.prototype.includes]. *)
Fixpoint includes (p s : list N) : bool :=
  starts_with p s ||
  match s with
  | [] => false
  | _ :: t => includes p t
  end.

(** Longest prefix whose code units satisfy [p], and the rest. *)
Fixpoint span (p : N → bool) (s : list N) : list N * list N :=
  match s with
  | [] => ([], [])
  | c :: t => if p c then let '(a, b) := span p t in (c :: a, b) else ([], s)
  end.

Fixpoint drop_while (p : N → bool) (s : list N) : list N :=
  match s with
  | [] => []
  | c :: t => if p c then drop_while p t else s
  end.

(** [String.prototype.trim]. *)
Definition trim (s : list N) : list N :=
  reverse (drop_while is_space (reverse (drop_while is_space s))).

(** [s.replace(/[class]/g, r)] for a class of single code units and a
    replacement text [r] without [$]. *)
Definition replace_class (p : N → bool) (r : list N) (s : list N) : list N :=
  c ← s; if p c then r else [c].

(** [s.replace(re, ...)] for a global regular expression [re] that never
    matches the empty string.  [matcher] gives the length of the match that
    starts at the head of a suffix of the subject; [subst] builds the
    replacement text from the matched text, the text before the match and the
    text after it.  The scan goes left to right and resumes after each
    match. *)
Section Replace.
Variable matcher : list N → option nat.
Variable subst : list N → list N → list N → list N.

Fixpoint replace_from (skip : nat) (before s : list N) : list N :=
  match s with
  | [] => []
  | c :: t =>
      match skip with
      | S k => replace_from k (before ++ [c]) t
      | O =>
          match matcher s with
          | Some (S k) =>
              subst (take (S k) s) before (drop (S k) s)
                ++ replace_from k (before ++ [c]) t
          | _ => c :: replace_from O (before ++ [c]) t
          end
      end
  end.

Definition replace_global (s : list N) : list N := replace_from 0 [] s.
End Replace.

(** The matcher of a regular expression that is a literal text. *)
Definition literal_match (p : list N) (s : list N) : option nat :=
  if starts_with p s then Some (length p) else None.

(** [GetSubstitution] of ECMAScript for a regular expression without capture
    groups: in the replacement text [$$] is a dollar, [$&] the matched text,
    [$`] the text before the match and [$'] the text after it; any other
    dollar stands for itself. *)
Fixpoint get_substitution (tpl matched before after : list N) : list N :=
  match tpl with
  | [] => []
  | c :: r =>
      if (c =? 36)%N then
        match r with
        | d :: r' =>
            if (d =? 36)%N then 36%N :: get_substitution r' matched before after
            else if (d =? 38)%N then matched ++ get_substitution r' matched before after
            else if (d =? 96)%N then before ++ get_substitution r' matched before after
            else if (d =? 39)%N then after ++ get_substitution r' matched before after
            else c :: get_substitution r matched before after
        | [] => [c]
        end
      else c :: get_substitution r matched before after
  end.

(** A replacement text holds a pattern that [GetSubstitution] expands: a
    dollar followed by a dollar, an ampersand, a backquote or a quote. *)
Fixpoint has_dollar_pattern (tpl : list N) : bool :=
  match tpl with
  | [] => false
  | c :: r =>
      ((c =? 36)%N
       && match r with
          | d :: _ => (d =? 36)%N || (d =? 38)%N || (d =? 96)%N || (d =? 39)%N
          | [] => false
          end)
      || has_dollar_pattern r
  end.

(** [s.replace(p, '')] for a string pattern [p]: the first occurrence of [p]
    is removed. *)
Fixpoint remove_first (p s : list N) : list N :=
  if starts_with p s then drop (length p) s
  else match s with
       | [] => []
       | c :: t => c :: remove_first p t
       end.

(** The characters [_.escapeRegExp] escapes: [^$\.*+?()[]{}|]. *)
Definition is_regexp_syntax (c : N) : bool :=
  bool_decide (c ∈ js "^$\.*+?()[]{}|").

(** [_.escapeRegExp]. *)
Definition escapeRegExp (s : list N) : list N :=
  c ← s; if is_regexp_syntax c then [92%N; c] else [c].

(** [new RegExp(src)] for a source made of plain characters and escaped
    syntax characters: the literal text it matches.  A source with an
    unescaped syntax character is not a literal. *)
Fixpoint regexp_literal (src : list N) : option (list N) :=
  match src with
  | [] => Some []
  | c :: r =>
      if (c =? 92)%N then
        match r with
        | d :: r' => if is_regexp_syntax d then cons d <$> regexp_literal r' else None
        | [] => None
        end
      else if is_regexp_syntax c then None
      else cons c <$> regexp_literal r
  end.

End JS.

(** ** [url.parse(u).pathname] of Node.js

    The legacy parser, as Node 8 has it.  The URL is trimmed of the white
    space the parser knows, and its backslashes before the first [?] or [#]
    become slashes.  A text that begins with a slash and holds neither white
    space nor a hash takes the fast path: its path is the text up to the
    first [?].  Otherwise come an optional protocol [/^([a-z0-9.+-]+:)/i],
    the two slashes that announce a host, and the host up to the first
    character that ends it; in what follows the host the characters of
    [escapedCodes] are percent-escaped, and the path is the text up to the
    first [?] or [#].  A [http:] or [https:] URL with a host and no path has
    the path [/].  [None] is the [null] the parser leaves when there is no
    path at all.

    Not modelled: the user-information part before an [@], the push-back
    into the path of what [validateHostname] refuses in a host name, and the
    host names of more than 255 characters.  The theorems about URL
    components range over URLs where none of these plays a part. *)

Module Url.
Import JS.

(** The white space the parser trims: space, tab, carriage return, line
    feed, form feed, no-break space and the byte order mark. *)
Definition is_url_space (c : N) : bool :=
  bool_decide (c ∈ [32; 9; 13; 10; 12; 160; 65279]%N).

Definition url_trim (u : list N) : list N :=
  reverse (drop_while is_url_space (reverse (drop_while is_url_space u))).

(** Backslashes become slashes until the first [?] or [#]. *)
Fixpoint unbackslash (u : list N) : list N :=
  match u with
  | [] => []
  | c :: t =>
      if (c =? 63)%N || (c =? 35)%N then u
      else (if (c =? 92)%N then 47%N else c) :: unbackslash t
  end.

(** [simplePathPattern], tried when the URL holds no hash: one slash, or
    two that no third follows, then a path without question mark or white
    space, then an optional query without white space.  The path is its
    first group. *)
Definition simple_path (rest : list N) : option (list N) :=
  if starts_with (js "/") rest && negb (starts_with (js "///") rest)
     && forallb (λ c, negb (is_space c || (c =? 35)%N)) rest
  then Some (fst (span (λ c, negb (c =? 63)%N) rest))
  else None.

Definition is_proto_char (c : N) : bool :=
  is_alnum c || (c =? 46)%N || (c =? 43)%N || (c =? 45)%N.

(** The protocol, in lower case and without its colon, and what follows. *)
Definition protocol (u : list N) : option (list N * list N) :=
  let '(p, r) := span is_proto_char u in
  match p, r with
  | _ :: _, c :: r' => if (c =? 58)%N then Some (to_lower <$> p, r') else None
  | _, _ => None
  end.

Definition slashedProtocol (p : list N) : bool :=
  bool_decide (p ∈ [js "http"; js "https"; js "ftp"; js "gopher"; js "file"]).

Definition hostlessProtocol (p : list N) : bool :=
  bool_decide (p = js "javascript").

Definition unsafeProtocol (p : list N) : bool :=
  bool_decide (p = js "javascript").

(** Characters that end the host: slash, question mark and hash, and those
    never allowed in a host name (tab, line feed, carriage return, space,
    double and single quote, percent, semicolon, angle brackets, backslash,
    caret, backquote, braces and bar). *)
Definition ends_host (c : N) : bool :=
  bool_decide (c ∈ [47; 63; 35; 9; 10; 13; 32; 34; 37; 39; 59; 60; 62; 92; 94; 96; 123; 124; 125]%N).

(** [escapedCodes]: tab, line feed, carriage return, space, the quotes,
    the angle brackets, backslash, caret, backquote, braces and bar. *)
Definition escapedCodes : list (N * list N) :=
  [(9%N, js "%09"); (10%N, js "%0A"); (13%N, js "%0D"); (32%N, js "%20");
   (34%N, js "%22"); (39%N, js "%27"); (60%N, js "%3C"); (62%N, js "%3E");
   (92%N, js "%5C"); (94%N, js "%5E"); (96%N, js "%60"); (123%N, js "%7B");
   (124%N, js "%7C"); (125%N, js "%7D")].

Fixpoint escaped_code (c : N) (table : list (N * list N)) : option (list N) :=
  match table with
  | [] => None
  | (k, e) :: t => if (c =? k)%N then Some e else escaped_code c t
  end.

(** [autoEscapeStr]. *)
Definition autoEscapeStr (rest : list N) : list N :=
  c ← rest; default [c] (escaped_code c escapedCodes).

Definition pathname (url : list N) : option (list N) :=
  let rest := unbackslash (url_trim url) in
  match simple_path rest with
  | Some path => Some path
  | None =>
      let '(proto, rest) :=
        match protocol rest with
        | Some (p, r) => (Some p, r)
        | None => (None, rest)
        end in
      let hostless := from_option hostlessProtocol false proto in
      let slashed := from_option slashedProtocol false proto in
      let slashes :=
        bool_decide (is_Some proto) && starts_with (js "//") rest && negb hostless in
      let rest := if slashes then drop 2 rest else rest in
      let parse_host :=
        negb hostless && (slashes || (bool_decide (is_Some proto) && negb slashed)) in
      let '(host, rest) :=
        if parse_host then span (λ c, negb (ends_host c)) rest else ([], rest) in
      let rest :=
        if from_option unsafeProtocol false proto then rest else autoEscapeStr rest in
      let rest := fst (span (λ c, negb (c =? 35)%N) rest) in
      let path := fst (span (λ c, negb (c =? 63)%N) rest) in
      match path with
      | _ :: _ => Some path
      | [] => if slashed && bool_decide (host ≠ []) then Some (js "/") else None
      end
  end.

End Url.

(** ** [he.encode(html, {useNamedReferences: true, allowUnsafeSymbols: true})]

    The encoder of the [he] package with the two options [secureHtml] sets.
    With unsafe symbols allowed it leaves the ampersand, the angle brackets
    and the quotes alone.  It shortens two escapes, replaces the symbols that
    have a named character reference, then the astral symbols, then every
    remaining symbol of its list of symbols to escape, by a hexadecimal
    escape.  The table of named references is large; its regular expression
    [regexEncodeNonAscii] and its map [encodeMap] are parameters. *)

Module He.
Import JS.

Definition hex_digit (d : N) : N :=
  if (d <? 10)%N then (48 + d)%N else (55 + d)%N.

(** [n.toString(16).toUpperCase()]; six digits suffice for a code point. *)
Fixpoint hex_from (fuel : nat) (n : N) (acc : list N) : list N :=
  match fuel with
  | O => acc
  | S f =>
      let acc' := hex_digit (n mod 16) :: acc in
      if (n / 16 =? 0)%N then acc' else hex_from f (n / 16) acc'
  end.

Definition to_hex (n : N) : list N := hex_from 6 n [].

Definition hexEscape (codePoint : N) : list N :=
  js "&#x" ++ to_hex codePoint ++ js ";".

(** [regexBmpWhitelist]: [\x01-\t], [\x0B], [\f], [\x0E-\x1F], [\x7F],
    [\x81], [\x8D], [\x8F], [\x90], [\x9D] and every code unit from [\xA0]
    on. *)
Definition regexBmpWhitelist (c : N) : bool :=
  in_range 1 9 c || (c =? 11)%N || (c =? 12)%N || in_range 14 31 c
  || (c =? 0x7F)%N || (c =? 0x81)%N || (c =? 0x8D)%N || (c =? 0x8F)%N
  || (c =? 0x90)%N || (c =? 0x9D)%N || (0xA0 <=? c)%N.

(** [regexAstralSymbols]: a high surrogate followed by a low one. *)
Definition regexAstralSymbols (s : list N) : option nat :=
  match s with
  | h :: l :: _ =>
      if in_range 0xD800 0xDBFF h && in_range 0xDC00 0xDFFF l then Some 2%nat else None
  | _ => None
  end.

Definition escapeAstral (matched : list N) : list N :=
  match matched with
  | [h; l] => hexEscape ((h - 0xD800) * 0x400 + l - 0xDC00 + 0x10000)%N
  | _ => matched
  end.

Definition escapeBmpSymbol (s : list N) : list N :=
  c ← s; if regexBmpWhitelist c then hexEscape c else [c].

(** Code units the encoder leaves alone. *)
Definition stable (c : N) : Prop := regexBmpWhitelist c = false.

(** The unsafe symbols of [he]: ampersand, angle brackets, quotes and
    backquote. *)
Definition is_unsafe (c : N) : bool :=
  bool_decide (c ∈ [38; 60; 62; 34; 39; 96]%N).

Section Encode.
Variable regexEncodeNonAscii : list N → option nat.
Variable encodeMap : list N → list N.

Definition encode (s : list N) : list N :=
  let s := replace_global (literal_match (js "&gt;" ++ [0x20D2%N]))
             (λ _ _ _, js "&nvgt;") s in
  let s := replace_global (literal_match (js "&lt;" ++ [0x20D2%N]))
             (λ _ _ _, js "&nvlt;") s in
  let s := replace_global regexEncodeNonAscii
             (λ matched _ _, js "&" ++ encodeMap matched ++ js ";") s in
  let s := replace_global regexAstralSymbols (λ matched _ _, escapeAstral matched) s in
  escapeBmpSymbol s.
End Encode.

End He.

(** ** The document as [cheerio] parses it

    [cheerio.load(html)] is taken as given: the elements of the document in
    document order, each with its tag and its attributes. *)

Record element := Element {
  tag : list N;
  attribs : list (list N * list N);
}.

(** [$(el).attr(name)]: the first attribute of that name, if any. *)
Fixpoint attr_lookup (name : list N) (l : list (list N * list N)) : option (list N) :=
  match l with
  | [] => None
  | (k, v) :: t => if bool_decide (k = name) then Some v else attr_lookup name t
  end.

Definition attr (el : element) (name : list N) : option (list N) :=
  attr_lookup name (attribs el).

(** ** [src/server/download.js] *)

Module Download.
Import JS.

(** [isHttpUrl]: [/^http/.test(uri)]. *)
Definition isHttpUrl (uri : list N) : bool := starts_with (js "http") uri.

Definition imagesFolder : list N := js "images".

(** [_.uniq] and the [includes]/[push] loop over [styleUrls]: a value is
    appended unless the result already holds it. *)
Definition push_new (acc : list (list N)) (x : list N) : list (list N) :=
  if bool_decide (x ∈ acc) then acc else acc ++ [x].

Definition uniq (l : list (list N)) : list (list N) := foldl push_new [] l.

(** The first group of [urlReg.exec(style)]: the text after the first
    [url(] and an optional single quote, up to the next closing parenthesis
    or single quote.  [None] when the style holds no [url(]. *)
Fixpoint style_url (style : list N) : option (list N) :=
  if starts_with (js "url(") style then
    let r := drop 4 style in
    let r := match r with
             | c :: t => if (c =? 39)%N then t else r
             | [] => r
             end in
    Some (fst (span (λ c, negb ((c =? 41)%N || (c =? 39)%N)) r))
  else match style with
       | [] => None
       | _ :: t => style_url t
       end.

Definition is_img (el : element) : bool := bool_decide (tag el = js "img").

(** [$('img').map((i, el) => $(el).attr('src')).get().filter(isHttpUrl)],
    then [_.uniq]; an element without the attribute yields nothing. *)
Definition imgUrls (doc : list element) : list (list N) :=
  uniq (filter (λ u, isHttpUrl u = true)
          (omap (λ el, attr el (js "src")) (filter (λ el, is_img el = true) doc))).

Definition bgUrls (doc : list element) : list (list N) :=
  uniq (filter (λ u, isHttpUrl u = true)
          (omap (λ el, attr el (js "background")) doc)).

(** The body of the [each] over the [style] attributes that hold [url(]. *)
Definition push_style (styleUrls : list (list N)) (style : list N) : list (list N) :=
  match style_url style with
  | Some u =>
      if bool_decide (u ≠ []) && isHttpUrl u && negb (bool_decide (u ∈ styleUrls))
      then styleUrls ++ [u] else styleUrls
  | None => styleUrls
  end.

Definition styleUrls (doc : list element) : list (list N) :=
  foldl push_style [] (omap (λ el, attr el (js "style")) doc).

(** The manifest. *)
Definition allImages (doc : list element) : list (list N) :=
  uniq (imgUrls doc ++ bgUrls doc ++ styleUrls doc).

(** [getImageName]; [None] when the parser leaves no path and [.replace]
    throws a [TypeError]. *)
Definition getImageName (imageUrl : list N) : option (list N) :=
  p ← Url.pathname imageUrl;
  Some (replace_class is_space (js "-")
          (trim (replace_class (λ c, (c =? 47)%N) (js " ") p))).

Definition relativeUrl (imgUrl : list N) : option (list N) :=
  n ← getImageName imgUrl; Some (imagesFolder ++ js "/" ++ n).

(** One round of the [forEach] that rewrites the HTML. *)
Definition rewrite_step (html imgUrl : list N) : option (list N) :=
  rel ← relativeUrl imgUrl;
  lit ← regexp_literal (escapeRegExp imgUrl);
  Some (replace_global (literal_match lit) (get_substitution rel) html).

Definition rewrite_html (html : list N) (images : list (list N)) : option (list N) :=
  foldl (λ acc u, h ← acc; rewrite_step h u) (Some html) images.

(** *** The three shapes of reference *)

Definition img_src (doc : list element) (u : list N) : Prop :=
  ∃ el, el ∈ doc ∧ tag el = js "img" ∧ attr el (js "src") = Some u.

Definition background_of (doc : list element) (u : list N) : Prop :=
  ∃ el, el ∈ doc ∧ attr el (js "background") = Some u.

Definition style_reference (doc : list element) (u : list N) : Prop :=
  ∃ el style, el ∈ doc ∧ attr el (js "style") = Some style ∧ style_url style = Some u.

(** *** URLs by their components *)

Definition is_slash (c : N) : bool := (c =? 47)%N.

Definition slash_to_space (c : N) : N := if is_slash c then 32%N else c.










(** *** The passes of the rewrite *)

(** [s0 ++ sep ++ s1 ++ sep ++ ... ++ last]. *)
Fixpoint join_with (sep : list N) (segs : list (list N)) (last : list N) : list N :=
  match segs with
  | [] => last
  | s :: rest => s ++ sep ++ join_with sep rest last
  end.

(** [u] does not occur in [s ++ u] before its end. *)
Definition first_at_end (u s : list N) : Prop :=
  includes u (s ++ take (length u - 1) u) = false.

(** *** The manifest, in the words of its description

    An absolute reference begins with the scheme [http://] or [https://],
    in letters of any case; [lower_http] asks for lower case. *)
Definition absolute_http (u : list N) : bool :=
  starts_with (js "http://") (to_lower <$> u)
  || starts_with (js "https://") (to_lower <$> u).

Definition lower_http (u : list N) : bool :=
  starts_with (js "http://") u || starts_with (js "https://") u.

(** The reference of a style: what its first [url(...)] holds, written
    bare ([q] empty), in single quotes or in double quotes. *)
Definition css_reference (q style u : list N) : Prop :=
  ∃ pre post,
    first_at_end (js "url(") pre
    ∧ Forall (λ c, c ≠ 41%N ∧ c ≠ 39%N ∧ c ≠ 34%N) u
    ∧ style = pre ++ js "url(" ++ q ++ u ++ q ++ 41%N :: post.

Definition style_reference_of (quotes : list (list N)) (doc : list element)
    (u : list N) : Prop :=
  ∃ el style q,
    el ∈ doc ∧ attr el (js "style") = Some style ∧ q ∈ quotes ∧ css_reference q style u.

(** The manifest as it is described: the absolute references of the
    three shapes. *)
Definition described_manifest (doc : list element) (u : list N) : Prop :=
  absolute_http u = true
  ∧ (img_src doc u ∨ background_of doc u
     ∨ style_reference_of [[]; [39%N]; [34%N]] doc u).

(** What follows the first [url(] of a style, after a single quote if
    there is one, up to the next closing parenthesis or single quote, or to
    the end of the style. *)
Definition follows_url (style u : list N) : Prop :=
  ∃ pre q rest,
    first_at_end (js "url(") pre
    ∧ (q = [] ∨ q = [39%N])
    ∧ style = pre ++ js "url(" ++ q ++ u ++ rest
    ∧ Forall (λ c, c ≠ 41%N ∧ c ≠ 39%N) u
    ∧ (q = [] → head (u ++ rest) ≠ Some 39%N)
    ∧ (rest = [] ∨ head rest = Some 41%N ∨ head rest = Some 39%N).

(** The HTML through the passes of the manifest entries, one after the
    other: in the pass of [u] the HTML is [s0 u s1 u ... last], with [u]
    occurring at the shown places only and its path [rel] holding no pattern
    of a replacement text, and becomes [s0 rel s1 rel ... last]. *)
Inductive Rewrites : list N → list (list N) → list N → Prop :=
  | rewrites_done html : Rewrites html [] html
  | rewrites_pass u rel segs last rest out :
      u ≠ [] → relativeUrl u = Some rel → has_dollar_pattern rel = false →
      Forall (first_at_end u) segs → includes u last = false →
      Rewrites (join_with rel segs last) rest out →
      Rewrites (join_with u segs last) (u :: rest) out.

(** *** The export handler [zip]

    The handler is asynchronous.  Its first part runs to the [await]: it
    builds the manifest, rewrites the HTML, appends the HTML to the archive
    and starts one request per image.  After that the handler advances only
    through the callbacks it registered: [response] and [error] of each
    request, [end] and [error] of the archive, and the continuation of
    [await Promise.all(imagesRequest)], which runs once every deferred is
    resolved. *)

Inductive source :=
  | HtmlText (text : list N)
  | ImageStream (imageUrl : list N).

Record entry := Entry {
  entry_name : list N;
  entry_prefix : list N;
  entry_source : source;
}.

Inductive js_error :=
  | HttpError (status : N)
  | TypeError
  | ArchiverError (code : N)
  | RequestError (code : N).

Record zip_state := ZipState {
  attachment : list N;
  root : list N;
  requests : list (list N * list N);
  entries : list entry;
  dfds : list bool;
  finalized : bool;
  res_ended : bool;
  next_errors : list js_error;
}.

Inductive zip_event :=
  | ImgResponse (i : nat) (statusCode : N)
  | ImgError (i : nat) (imgError : N)
  | ArchiveEnd
  | ArchiveError (code : N).

Inductive zip_outcome :=
  | Next (err : js_error)
  | Started (st : zip_state).

Record zip_request := ZipRequest {
  mailing : option (list N);
  body_html : list N;
}.

(** [dfd.resolve()]. *)
Definition resolve (i : nat) (st : zip_state) : zip_state :=
  ZipState (attachment st) (root st) (requests st) (entries st)
    (<[i := true]> (dfds st)) (finalized st) (res_ended st) (next_errors st).

(** [archive.append]: once the archive is finalized the archiver takes no
    entry and emits an error, which goes to [next]. *)
Definition append (e : entry) (st : zip_state) : zip_state :=
  if finalized st then
    ZipState (attachment st) (root st) (requests st) (entries st)
      (dfds st) (finalized st) (res_ended st) (next_errors st ++ [ArchiverError 0])
  else
    ZipState (attachment st) (root st) (requests st) (entries st ++ [e])
      (dfds st) (finalized st) (res_ended st) (next_errors st).

(** The callbacks. *)
Definition handle (ev : zip_event) (st : zip_state) : zip_state :=
  match ev with
  | ImgResponse i statusCode =>
      match requests st !! i with
      | Some (imageUrl, imageName) =>
          if negb (statusCode =? 200)%N then st
          else resolve i
                 (append (Entry imageName (root st ++ js "/" ++ imagesFolder ++ js "/")
                            (ImageStream imageUrl)) st)
      | None => st
      end
  | ImgError i imgError =>
      match requests st !! i with
      | Some _ => resolve i st
      | None => st
      end
  | ArchiveEnd =>
      ZipState (attachment st) (root st) (requests st) (entries st)
        (dfds st) (finalized st) true (next_errors st)
  | ArchiveError code =>
      ZipState (attachment st) (root st) (requests st) (entries st)
        (dfds st) (finalized st) (res_ended st) (next_errors st ++ [ArchiverError code])
  end.

(** The continuation of [await Promise.all(imagesRequest)]:
    [archive.finalize()], once, when every deferred is resolved. *)
Definition continue (st : zip_state) : zip_state :=
  if negb (finalized st) && forallb id (dfds st) then
    ZipState (attachment st) (root st) (requests st) (entries st)
      (dfds st) true (res_ended st) (next_errors st)
  else st.

Definition step (st : zip_state) (ev : zip_event) : zip_state :=
  continue (handle ev st).

Definition run (events : list zip_event) (st : zip_state) : zip_state :=
  foldl step st events.



(** The two facts every state of the export keeps. *)
Definition zip_invariant (st : zip_state) : Prop :=
  (finalized st = true → Forall (λ d, d = true) (dfds st))
  ∧ (res_ended st = true → finalized st = true).

(** An event that resolves the deferred of request [i]. *)
Definition resolves (i : nat) (ev : zip_event) : Prop :=
  ev = ImgResponse i 200 ∨ ∃ e, ev = ImgError i e.

(** [name.replace(/\.[0-9a-z]+$/, '')]. *)
Fixpoint strip_extension (s : list N) : list N :=
  match s with
  | [] => []
  | c :: t =>
      if (c =? 46)%N && bool_decide (t ≠ []) && forallb (λ d, is_digit d || is_lower d) t
      then [] else c :: strip_extension t
  end.

Section Zip.
(** [speakingurl], the named references of [he], and [cheerio.load]. *)
Variable getSlug : list N → list N.
Variable regexEncodeNonAscii : list N → option nat.
Variable encodeMap : list N → list N.
Variable load : list N → list element.

(** [secureHtml]. *)
Definition secureHtml (html : list N) : list N :=
  He.encode regexEncodeNonAscii encodeMap
    (replace_class (λ c, (c =? 9)%N) (js " ") html).

(** [getName]. *)
Definition getName (name : list N) : list N :=
  let name := match name with [] => js "email" | _ => name end in
  getSlug (strip_extension name).

(** [zip] up to its [await]. *)
Definition zip (req : zip_request) : zip_outcome :=
  match mailing req with
  | None => Next (HttpError 404)
  | Some mailing_name =>
      let name := getName mailing_name in
      let images := allImages (load (body_html req)) in
      match rewrite_html (body_html req) images,
            mapM (λ u, n ← getImageName u; Some (u, n)) images with
      | Some html, Some reqs =>
          Started (continue
            (ZipState (name ++ js ".zip") name reqs
               [Entry (name ++ js ".html") (name ++ js "/") (HtmlText (secureHtml html))]
               (replicate (length reqs) false) false false []))
      | _, _ => Next TypeError
      end
  end.
End Zip.

End Download.

(** ** [src/server/filemanager/index.js] *)

Module Filemanager.
Import JS.

(** The file objects of [formidable]; [onFile] overwrites [name] and adds
    [originalName]. *)
Record File := mkFile {
  size : N;
  path : list N;
  name : list N;
  type : list N;
  hash : list N;
  originalName : option (list N);
}.

(** A file part of the multipart body. *)
Record part := Part {
  field : list N;
  filename : list N;
  mime : list N;
  tmp : list N;
  content : list N;
}.

Inductive formatter := editor | groups.

Record options := Options {
  prefix : list N;
  format : formatter;
}.

Inductive upload_error :=
  | ParseFailed (code : N)
  | WriteFailed (code : N)
  | ThrownTypeError.

Inductive promise (A : Type) :=
  | Pending
  | Fulfilled (a : A)
  | Rejected (e : upload_error).
Arguments Pending {A}.
Arguments Fulfilled {A} a.
Arguments Rejected {A} e.

(** The fields of the form, with what [handleTemplatesUploads] adds. *)
Record fields := Fields {
  form : gmap (list N) (list N);
  assets : option (gmap (list N) (list N));
  markup : option (list N);
}.

(** [imageToFields].  [fields.assets] is the object an earlier call put
    there, or else the form field of that name, a text.  An empty text is
    falsy and gives way to a new object; on any other text the assignment to
    one of its properties throws a [TypeError], the module being in strict
    mode: [None].  A file [onFile] did not rename has no [originalName] and
    its key is the text [undefined]. *)
Definition imageToFields (fs : fields) (file : File) : option fields :=
  if (size file =? 0)%N then Some fs
  else if bool_decide (name file = []) then Some fs
  else
    let key := from_option id (js "undefined") (originalName file) in
    match assets fs with
    | Some m => Some (Fields (form fs) (Some (<[key := name file]> m)) (markup fs))
    | None =>
        match form fs !! js "assets" with
        | Some (_ :: _) => None
        | _ => Some (Fields (form fs) (Some (<[key := name file]> ∅)) (markup fs))
        end
    end.

(** [files.images.forEach(file => imageToFields(fields, file))], or the
    single call when [files.images] is one file. *)
Definition images_forEach (fs : fields) (images : list File) : option fields :=
  foldl (λ acc file, fs ← acc; imageToFields fs file) (Some fs) images.

(** What [onFile] does with a file. *)
Inductive on_file :=
  | Ignored
  | Warned (file_name : list N)
  | Stored (file : File).

(** The join of [Promise.all]. *)
Inductive join := NotStarted | Waiting (fs : fields) | Done.

(** The value the returned promise resolves to.  For the editor it is
    [{ files: [formatName(name)] }]; the helper
    [helpers/format-filename-for-jqueryfileupload.js] is kept symbolic and the
    result records the name it is applied to ([None] for [undefined]). *)
Inductive result :=
  | GroupsResult (fs : fields)
  | EditorResult (formatName_of : list (option (list N))).

Record upload_state := UploadState {
  files : list (list N * File);
  uploads : list (File * promise ());
  warnings : list (list N);
  ended : bool;
  joined : join;
  reading : option fields;
  deferred : promise result;
}.

Inductive upload_event :=
  | FileEvent (p : part)
  | WriteSettled (k : nat) (failure : option N)
  | ParseEnd (err : option N) (form_fields : gmap (list N) (list N))
  | ReadFileDone (text : list N).

(** [deferred.resolve] and [deferred.reject]: a promise settles once. *)
Definition settle_deferred (r : promise result) (st : upload_state) : upload_state :=
  match deferred st with
  | Pending =>
      UploadState (files st) (uploads st) (warnings st) (ended st) (joined st)
        (reading st) r
  | _ => st
  end.

Definition files_named (field_name : list N) (st : upload_state) : list File :=
  snd <$> filter (λ f, f.1 = field_name) (files st).

(** [handleTemplatesUploads]: [files.images] is one file or an array;
    [files.markup] is read when it is a single named file.  What
    [imageToFields] throws is caught by the [catch] of [onEnd], which
    rejects. *)
Definition handleTemplatesUploads (fs : fields) (st : upload_state) : upload_state :=
  match images_forEach fs (files_named (js "images") st) with
  | None => settle_deferred (Rejected ThrownTypeError) st
  | Some fs =>
      match files_named (js "markup") st with
      | [m] =>
          if bool_decide (name m ≠ []) then
            UploadState (files st) (uploads st) (warnings st) (ended st) (joined st)
              (Some fs) (deferred st)
          else settle_deferred (Fulfilled (GroupsResult fs)) st
      | _ => settle_deferred (Fulfilled (GroupsResult fs)) st
      end
  end.

(** [handleEditorUpload]: without a [files[]] part the property access
    throws, and the [catch] of [onEnd] rejects. *)
Definition handleEditorUpload (st : upload_state) : upload_state :=
  match files_named (js "files[]") st with
  | [] => settle_deferred (Rejected ThrownTypeError) st
  | [f] => settle_deferred (Fulfilled (EditorResult [Some (name f)])) st
  | _ => settle_deferred (Fulfilled (EditorResult [None])) st
  end.

Definition first_rejected (us : list (File * promise ())) : option upload_error :=
  head (omap (λ u, match u.2 with Rejected e => Some e | _ => None end) us).

Definition is_fulfilled (u : File * promise ()) : bool :=
  match u.2 with Fulfilled _ => true | _ => false end.

Definition set_joined (j : join) (st : upload_state) : upload_state :=
  UploadState (files st) (uploads st) (warnings st) (ended st) j
    (reading st) (deferred st).

(** The reactions of [Promise.all(uploads).then(...).catch(...)]: it
    rejects with the first rejection it observes, and runs the formatter
    once every write is fulfilled. *)
Definition react (opts : options) (st : upload_state) : upload_state :=
  match joined st with
  | Waiting fs =>
      match first_rejected (uploads st) with
      | Some e => settle_deferred (Rejected e) (set_joined Done st)
      | None =>
          if forallb is_fulfilled (uploads st) then
            match format opts with
            | groups => handleTemplatesUploads fs (set_joined Done st)
            | editor => handleEditorUpload (set_joined Done st)
            end
          else st
      end
  | _ => st
  end.

Definition settle_write (failure : option N) (u : File * promise ()) : File * promise () :=
  match u.2 with
  | Pending => (u.1, match failure with
                     | Some code => Rejected (WriteFailed code)
                     | None => Fulfilled ()
                     end)
  | _ => u
  end.

(** [parseMultipart]: the state when it returns. *)
Definition parseMultipart : upload_state :=
  UploadState [] [] [] false NotStarted None Pending.

(** *** What the states of a submission keep *)

Definition all_fulfilled (st : upload_state) : Prop :=
  Forall (λ u : File * promise (), u.2 = Fulfilled ()) (uploads st).

Definition some_rejected (st : upload_state) (e : upload_error) : Prop :=
  ∃ u : File * promise (), u ∈ uploads st ∧ u.2 = Rejected e.

(** What holds before the reactions of the join run. *)
Definition handled (st : upload_state) : Prop :=
  match joined st with
  | NotStarted =>
      reading st = None ∧ (∀ r, deferred st ≠ Fulfilled r)
      ∧ (ended st = false → deferred st = Pending)
  | Waiting _ =>
      ended st = true ∧ reading st = None ∧ deferred st = Pending
  | Done =>
      ended st = true
      ∧ ((reading st = None ∧ ∃ e, deferred st = Rejected e ∧ some_rejected st e)
         ∨ all_fulfilled st)
  end.

(** What holds between two events. *)
Definition settled (st : upload_state) : Prop :=
  handled st ∧
  match joined st with
  | Waiting _ => first_rejected (uploads st) = None
  | _ => True
  end.

(** An event other than the end of the parse; a write that does not fail;
    a write that has not failed. *)
Definition not_parse_end (ev : upload_event) : Prop :=
  ∀ err ff, ev ≠ ParseEnd err ff.

Definition not_failure (ev : upload_event) : Prop :=
  ∀ k code, ev ≠ WriteSettled k (Some code).

Definition not_rejected (u : File * promise ()) : Prop := ∀ e, u.2 ≠ Rejected e.

Section Upload.
(** [shared/slug-filename.js], [path.extname], [mime.extension] (with
    [None] for its [false]) and the [md5] digest [formidable] computes. *)
Variable slugFilename : list N → list N.
Variable extname : list N → list N.
Variable mime_extension : list N → option (list N).
Variable md5 : list N → list N.

(** The file object [formidable] builds for a part, with [form.hash]
    set to [md5]. *)
Definition incoming (p : part) : File :=
  mkFile (N.of_nat (length (content p))) (tmp p) (filename p) (mime p)
    (md5 (content p)) None.

(** The text a template literal gives for [mime.extension(file.type)]. *)
Definition ext_text (ext : option (list N)) : list N :=
  from_option id (js "false") ext.

(** [onFile]. *)
Definition onFile (opts : options) (field_name : list N) (file : File) : on_file :=
  if (size file =? 0)%N then Ignored
  else if bool_decide (field_name = js "markup") then Ignored
  else
    let fileName := slugFilename (name file) in
    let fileName := remove_first (extname fileName) fileName in
    match fileName with
    | [] => Warned (name file)
    | _ =>
        let ext := ext_text (mime_extension (type file)) in
        Stored (mkFile (size file) (path file)
                  (prefix opts ++ js "-" ++ hash file ++ js "." ++ ext)
                  (type file) (hash file)
                  (Some (fileName ++ js "." ++ ext)))
    end.

(** The event handlers: the [file] listeners (the one of [form.parse],
    which collects the file, then [onFile]), the settling of a write,
    [onEnd], and the [then] of [readFile]. *)
Definition handle (opts : options) (ev : upload_event) (st : upload_state) : upload_state :=
  match ev with
  | FileEvent p =>
      if ended st then st
      else
        let file := incoming p in
        match onFile opts (field p) file with
        | Ignored =>
            UploadState (files st ++ [(field p, file)]) (uploads st) (warnings st)
              (ended st) (joined st) (reading st) (deferred st)
        | Warned n =>
            UploadState (files st ++ [(field p, file)]) (uploads st)
              (warnings st ++ [n]) (ended st) (joined st) (reading st) (deferred st)
        | Stored file' =>
            UploadState (files st ++ [(field p, file')])
              (uploads st ++ [(file', Pending)]) (warnings st)
              (ended st) (joined st) (reading st) (deferred st)
        end
  | WriteSettled k failure =>
      UploadState (files st) (alter (settle_write failure) k (uploads st))
        (warnings st) (ended st) (joined st) (reading st) (deferred st)
  | ParseEnd err form_fields =>
      if ended st then st
      else
        let st := UploadState (files st) (uploads st) (warnings st) true
                    (joined st) (reading st) (deferred st) in
        match err with
        | Some code => settle_deferred (Rejected (ParseFailed code)) st
        | None => set_joined (Waiting (Fields form_fields None None)) st
        end
  | ReadFileDone text =>
      match reading st with
      | Some fs =>
          settle_deferred
            (Fulfilled (GroupsResult (Fields (form fs) (assets fs) (Some text))))
            (UploadState (files st) (uploads st) (warnings st) (ended st)
               (joined st) None (deferred st))
      | None => st
      end
  end.

Definition step (opts : options) (st : upload_state) (ev : upload_event) : upload_state :=
  react opts (handle opts ev st).

(** The state after a part that is not written: its file is collected
    and its name may go to the warnings. *)
Definition skipped (st : upload_state) (p : part) (warned : list (list N)) : upload_state :=
  UploadState (files st ++ [(field p, incoming p)]) (uploads st)
    (warnings st ++ warned) (ended st) (joined st) (reading st) (deferred st).

(** The run of the events that follow [parseMultipart]. *)
Definition run (opts : options) (events : list upload_event) : upload_state :=
  foldl (step opts) parseMultipart events.
End Upload.

End Filemanager.

(** ** Sample collaborators and inputs

    Small stand-ins for the libraries the theorems take as parameters, and
    the inputs of the examples. *)

Module Sample.
Import JS.

(** In place of [speakingurl]. *)
Definition getSlug (s : list N) : list N :=
  (λ c, if is_alnum c then to_lower c else 45%N) <$> s.

(** A table of three named references: no-break space, e acute, euro. *)
Definition regexEncodeNonAscii (s : list N) : option nat :=
  match s with
  | c :: _ => if bool_decide (c ∈ [0xA0; 0xE9; 0x20AC]%N) then Some 1 else None
  | [] => None
  end.

Definition encodeMap (matched : list N) : list N :=
  if bool_decide (matched = [0xA0%N]) then js "nbsp"
  else if bool_decide (matched = [0xE9%N]) then js "eacute"
  else js "euro".

Definition img (src : string) : element := Element (js "img") [(js "src", js src)].

Definition three_images : list element :=
  [img "http://a.com/a.png"; img "http://a.com/b.png"; img "http://a.com/c.png"].

Definition newsletter : Download.zip_request :=
  Download.ZipRequest (Some (js "news.html"))
    (js "<img src='http://a.com/a.png'><img src='http://a.com/b.png'><img src='http://a.com/c.png'>").

(** The three references of the specification's example. *)
Definition three_shapes : list element :=
  [img "http://a.com/x.png";
   Element (js "div") [(js "background", js "http://a.com/y.png")];
   Element (js "td") [(js "style", js "background:url('http://a.com/x.png')")]].

(** A relative reference that begins with the letters [http], a URL
    whose scheme is in upper case, and a style whose reference is in double
    quotes. *)
Definition loose_shapes : list element :=
  [img "httpdocs/logo.png";
   img "HTTP://A.COM/X.PNG";
   Element (js "td")
     [(js "style",
       js "background:url(" ++ [34%N] ++ js "http://a.com/bg.png" ++ [34%N] ++ js ")")]].

(** A style that alone refers to its image. *)
Definition styled_cell : list element :=
  [Element (js "td") [(js "style", js "color:red;background:url(http://a.com/z.png)")]].

(** A link whose target holds the URL of an image. *)
Definition nested_html : list N :=
  js "<img src='http://a.com/i'><a href='http://a.com/http://a.com/i'>".

Definition nested_doc : list element :=
  [img "http://a.com/i";
   Element (js "a") [(js "href", js "http://a.com/http://a.com/i")]].

(** Two images, the URL of the second being that of the first with a
    query. *)
Definition versioned_html : list N :=
  js "<img src='http://a.com/x.png'><img src='http://a.com/x.png?v=2'>".

Definition versioned_doc : list element :=
  [img "http://a.com/x.png"; img "http://a.com/x.png?v=2"].

(** In place of [shared/slug-filename.js]: letters in lower case, digits
    and dots kept, spaces as hyphens, the rest dropped. *)
Definition slugFilename (s : list N) : list N :=
  c ← s;
  if is_alnum c || (c =? 46)%N then [to_lower c]
  else if (c =? 32)%N then [45%N] else [].

(** In place of [path.extname], for a name without directories: the text
    from the last dot on, unless the name has no dot or only a leading one. *)
Definition extname (s : list N) : list N :=
  let '(ext, rest) := span (λ c, negb (c =? 46)%N) (reverse s) in
  match rest with
  | dot :: _ :: _ => dot :: reverse ext
  | _ => []
  end.

(** Three rows of the table of [mime-types]. *)
Definition mime_extension (type : list N) : option (list N) :=
  if bool_decide (type = js "image/png") then Some (js "png")
  else if bool_decide (type = js "image/jpeg") then Some (js "jpeg")
  else if bool_decide (type = js "image/gif") then Some (js "gif")
  else None.

(** In place of the [md5] digest: the sum of the bytes, in hexadecimal. *)
Definition digest (bytes : list N) : list N := He.to_hex (foldr N.add 0%N bytes).

Definition template : Filemanager.options :=
  Filemanager.Options (js "tpl") Filemanager.groups.

Definition logo : Filemanager.part :=
  Filemanager.Part (js "images") (js "Logo.png") (js "image/png") (js "/tmp/upload_1")
    [137; 80; 78; 71]%N.

Definition logo_copy : Filemanager.part :=
  Filemanager.Part (js "images") (js "copy of logo.png") (js "image/png") (js "/tmp/upload_2")
    [137; 80; 78; 71]%N.

Definition blob : Filemanager.part :=
  Filemanager.Part (js "images") (js "data.bin") (js "application/x-unknown")
    (js "/tmp/upload_3") [1; 2; 3]%N.

Definition empty_file : Filemanager.part :=
  Filemanager.Part (js "images") (js "empty.png") (js "image/png") (js "/tmp/upload_4") [].

Definition unnamed : Filemanager.part :=
  Filemanager.Part (js "images") [] (js "image/png") (js "/tmp/upload_5") [7; 7]%N.

Definition punctuation : Filemanager.part :=
  Filemanager.Part (js "images") (js "???") (js "image/png") (js "/tmp/upload_6") [9; 9]%N.

End Sample.

(** ** The handlers and their mailing

    [send] and [zip] first look the mailing up: [Mailing.findOne(reqParams)]
    with [where.id] set to the id of the route and, for a user who is not an
    administrator, [where.groupId] set to the group of the user.  The store
    is a list of rows and [findOne] gives the first row that meets every
    equality of the [where] clause. *)

Module Handlers.
Import JS Download.

Record mailing_row := MailingRow {
  row_id : list N;
  row_groupId : list N;
  row_name : list N;
}.

Record user := User {
  isAdmin : bool;
  groupId : list N;
  email : list N;
}.

(** The [where] clause the two handlers build. *)
Definition where_clause (u : user) (mailingId : list N) (row : mailing_row) : bool :=
  bool_decide (row_id row = mailingId)
  && (isAdmin u || bool_decide (row_groupId row = groupId u)).

Fixpoint findOne (cond : mailing_row → bool) (store : list mailing_row)
    : option mailing_row :=
  match store with
  | [] => None
  | row :: rest => if cond row then Some row else findOne cond rest
  end.

(** What [send] hands to [mail.send]. *)
Record mail := Mail {
  mail_to : list N;
  mail_replyTo : list N;
  mail_subject : list N;
  mail_html : list N;
}.

Inductive send_outcome :=
  | SendNext (err : js_error)
  | MailSent (m : mail).

Record send_request := SendRequest {
  xhr : bool;
  send_user : user;
  send_mailingId : list N;
  body_rcpt : list N;
  send_html : list N;
}.

Section Routes.
(** [speakingurl], the named references of [he], [cheerio.load], and
    [config.emailOptions.testSubjectPrefix]. *)
Variable getSlug : list N → list N.
Variable regexEncodeNonAscii : list N → option nat.
Variable encodeMap : list N → list N.
Variable load : list N → list element.
Variable testSubjectPrefix : list N.

(** [send], up to the call of [mail.send]. *)
Definition send (store : list mailing_row) (req : send_request) : send_outcome :=
  if negb (xhr req) then SendNext (HttpError 501)
  else
    match findOne (where_clause (send_user req) (send_mailingId req)) store with
    | None => SendNext (HttpError 404)
    | Some mailing =>
        MailSent (Mail (body_rcpt req) (email (send_user req))
                    (testSubjectPrefix ++ row_name mailing)
                    (secureHtml regexEncodeNonAscii encodeMap (send_html req)))
    end.

(** [zip], from the lookup of the mailing on. *)
Definition zip_for (store : list mailing_row) (u : user) (mailingId html : list N)
    : zip_outcome :=
  zip getSlug regexEncodeNonAscii encodeMap load
    (ZipRequest (row_name <$> findOne (where_clause u mailingId) store) html).
End Routes.

End Handlers.

(** ** The outcome of a submission *)

Module Outcome.
Import JS Filemanager.

(** The key of a file in the asset map. *)
Definition asset_key (file : File) : list N :=
  from_option id (js "undefined") (originalName file).

(** A file [imageToFields] keeps. *)
Definition kept (file : File) : Prop := size file ≠ 0%N ∧ name file ≠ [].

Definition with_markup (fs : fields) (text : list N) : fields :=
  Fields (form fs) (assets fs) (Some text).

(** What the formatter of the options does with the files of a state:
    it settles the promise, or it starts reading the markup. *)
Inductive formatting :=
  | Settles (d : promise result)
  | Reads (fs : fields).

Definition formatter_effect (opts : options) (fs : fields) (st : upload_state)
    : formatting :=
  match format opts with
  | editor =>
      match files_named (js "files[]") st with
      | [] => Settles (Rejected ThrownTypeError)
      | [f] => Settles (Fulfilled (EditorResult [Some (name f)]))
      | _ => Settles (Fulfilled (EditorResult [None]))
      end
  | groups =>
      match images_forEach fs (files_named (js "images") st) with
      | None => Settles (Rejected ThrownTypeError)
      | Some fs =>
          match files_named (js "markup") st with
          | [m] => if bool_decide (name m ≠ []) then Reads fs
                   else Settles (Fulfilled (GroupsResult fs))
          | _ => Settles (Fulfilled (GroupsResult fs))
          end
      end
  end.

(** The states after [onEnd] started the join over the files of [s0]:
    the join waits on a write, or a write failed, or every write is
    fulfilled and the formatter had its effect. *)
Definition after_parse (opts : options) (fs : fields) (s0 st : upload_state) : Prop :=
  files st = files s0 ∧ ended st = true ∧
  ((joined st = Waiting fs ∧ deferred st = Pending ∧ reading st = None
    ∧ first_rejected (uploads st) = None
    ∧ forallb is_fulfilled (uploads st) = false)
   ∨ (joined st = Done ∧ reading st = None
      ∧ ∃ e, deferred st = Rejected e ∧ some_rejected st e)
   ∨ (joined st = Done ∧ all_fulfilled st
      ∧ match formatter_effect opts fs s0 with
        | Settles d => deferred st = d ∧ reading st = None
        | Reads fs' =>
            (deferred st = Pending ∧ reading st = Some fs')
            ∨ (reading st = None
               ∧ ∃ text, deferred st = Fulfilled (GroupsResult (with_markup fs' text)))
        end)).

Section Writes.
Variable slugFilename : list N → list N.
Variable extname : list N → list N.
Variable mime_extension : list N → option (list N).
Variable md5 : list N → list N.

(** The write of a file is that of a part: not empty, not the markup,
    from the temporary file of the part and under the name its bytes and its
    MIME type give. *)
Definition written_from (opts : options) (file : File) (p : part) : Prop :=
  content p ≠ [] ∧ field p ≠ js "markup" ∧ path file = tmp p
  ∧ name file = prefix opts ++ js "-" ++ md5 (content p) ++ js "."
                  ++ ext_text (mime_extension (mime p)).

(** The parts of the [file] events. *)
Definition parts (events : list upload_event) : list part :=
  omap (λ ev, match ev with FileEvent p => Some p | _ => None end) events.

(** The file [onFile] hands to the storage for a part, if any, and the
    file [form.parse] collects for it under the name of its field. *)
Definition stored_file (opts : options) (p : part) : option File :=
  match onFile slugFilename extname mime_extension opts (field p) (incoming md5 p) with
  | Stored file => Some file
  | _ => None
  end.

Definition collected (opts : options) (p : part) : list N * File :=
  (field p, default (incoming md5 p) (stored_file opts p)).
End Writes.

End Outcome.

(** ** The progress of an export *)

Module Progress.
Import Download.

(** Right after the continuation had its turn, all deferreds resolved means
    finalized. *)
Definition caught_up (st : zip_state) : Prop :=
  forallb id (dfds st) = true → finalized st = true.

End Progress.

(** ** More sample inputs *)

Module Fixtures.
Import JS Filemanager Handlers.

(** Two mailings, of two groups. *)
Definition store : list mailing_row :=
  [MailingRow (js "m1") (js "g1") (js "Spring sale.html");
   MailingRow (js "m2") (js "g2") (js "Autumn")].

Definition ann : user := User false (js "g1") (js "ann@example.com").

Definition testSubjectPrefix : list N := js "[TEST] ".

(** A test mail whose HTML holds a tab. *)
Definition test_mail : send_request :=
  SendRequest true ann (js "m1") (js "bob@example.com")
    (js "<p>" ++ [9%N] ++ js "Hello</p>").

Definition gallery : options := Options (js "gal") editor.

Definition photo : part :=
  Part (js "files[]") (js "Photo.jpeg") (js "image/jpeg") (js "/tmp/upload_7")
    [255; 216; 255]%N.

Definition markup_part : part :=
  Part (js "markup") (js "template.html") (js "text/html") (js "/tmp/upload_8")
    [60; 112; 62]%N.

Definition preview : File :=
  mkFile 4 (js "/tmp/upload_1") (js "tpl-16E.png") (js "image/png") (js "16E")
    (Some (js "preview.png")).

Definition preview_again : File :=
  mkFile 3 (js "/tmp/upload_3") (js "tpl-6.png") (js "image/png") (js "6")
    (Some (js "preview.png")).

Definition hollow : File :=
  mkFile 0 (js "/tmp/upload_4") (js "empty.png") (js "image/png") (js "0") None.

End Fixtures.

Module JSFacts.
Import JS.

Lemma starts_with_take p s : starts_with p s = true ↔ take (length p) s = p.
Proof.
  revert s. induction p as [|a p IH]; intros [|b s]; simpl; try done.
  rewrite andb_true_iff, N.eqb_eq, IH. split.
  - intros [-> ->]. done.
  - intros [= -> H]. by rewrite H.
Qed.

Lemma starts_with_app p t : starts_with p (p ++ t) = true.
Proof. apply starts_with_take. by rewrite take_app_length. Qed.

Lemma starts_with_elem p s c : starts_with p s = true → c ∈ p → c ∈ s.
Proof.
  rewrite starts_with_take. intros H Hc.
  rewrite <- (take_drop (length p) s), H. apply elem_of_app. by left.
Qed.

Lemma includes_spec p s : includes p s = true ↔ ∃ k, starts_with p (drop k s) = true.
Proof.
  induction s as [|c s IH].
  - simpl. rewrite orb_false_r. split; [by exists 0|]. intros [k H]. by rewrite drop_nil in H.
  - cbn [includes]. rewrite orb_true_iff, IH. split.
    + intros [H|[k H]]; [by exists 0 | by exists (S k)].
    + intros [[|k] H]; [by left | right; by exists k].
Qed.

Section ReplaceFacts.
Variable matcher : list N → option nat.
Variable subst : list N → list N → list N → list N.

Lemma replace_from_skip x : ∀ b t,
  replace_from matcher subst (length x) b (x ++ t)
  = replace_from matcher subst 0 (b ++ x) t.
Proof.
  induction x as [|c x IH]; intros b t; simpl.
  - by rewrite app_nil_r.
  - rewrite IH. by rewrite <- app_assoc.
Qed.

Lemma replace_from_miss a : ∀ b s,
  (∀ k, k < length a → matcher (drop k (a ++ s)) = None) →
  replace_from matcher subst 0 b (a ++ s) = a ++ replace_from matcher subst 0 (b ++ a) s.
Proof.
  induction a as [|c a IH]; intros b s H; simpl.
  - by rewrite app_nil_r.
  - pose proof (H 0 ltac:(simpl; lia)) as H0. simpl in H0. rewrite H0. f_equal.
    rewrite IH, <- app_assoc; [done|].
    intros k Hk. apply (H (S k)). simpl. lia.
Qed.

Lemma replace_global_miss s :
  (∀ k, matcher (drop k s) = None) → replace_global matcher subst s = s.
Proof.
  intros H. unfold replace_global.
  rewrite <- (app_nil_r s) at 1. rewrite replace_from_miss.
  - simpl. by rewrite app_nil_r.
  - intros k _. rewrite app_nil_r. apply H.
Qed.

Lemma replace_from_hit c k b t :
  matcher (c :: t) = Some (S k) → k ≤ length t →
  replace_from matcher subst 0 b (c :: t)
  = subst (c :: take k t) b (drop k t)
      ++ replace_from matcher subst 0 (b ++ c :: take k t) (drop k t).
Proof.
  intros H Hk. simpl. rewrite H. f_equal.
  rewrite <- (take_drop k t) at 1.
  assert (length (take k t) = k) as Hl by (rewrite length_take; lia).
  rewrite <- Hl at 1. rewrite replace_from_skip. by rewrite <- app_assoc.
Qed.
End ReplaceFacts.

Lemma replace_from_ext m f g : (∀ x b a, f x b a = g x b a) →
  ∀ s k b, replace_from m f k b s = replace_from m g k b s.
Proof.
  intros E. induction s as [|c s IH]; intros k b; simpl; [done|].
  destruct k; [|apply IH].
  destruct (m (c :: s)) as [[|j]|]; rewrite ?IH, ?E; done.
Qed.

Lemma escapeRegExp_cons c u :
  escapeRegExp (c :: u)
  = (if is_regexp_syntax c then [92%N; c] else [c]) ++ escapeRegExp u.
Proof. reflexivity. Qed.

Lemma regexp_literal_escape u : regexp_literal (escapeRegExp u) = Some u.
Proof.
  induction u as [|c u IH]; [done|].
  rewrite escapeRegExp_cons.
  destruct (is_regexp_syntax c) eqn:E; simpl.
  - by rewrite E, IH.
  - rewrite E. destruct (c =? 92)%N eqn:E92.
    + apply N.eqb_eq in E92. subst c. by vm_compute in E.
    + by rewrite IH.
Qed.

Lemma get_substitution_plain tpl m b a :
  has_dollar_pattern tpl = false → get_substitution tpl m b a = tpl.
Proof.
  induction tpl as [|c r IH]; [done|].
  cbn [has_dollar_pattern get_substitution]. intros [H Hr]%orb_false_iff.
  destruct (c =? 36)%N eqn:E.
  - destruct r as [|d r']; [done|]. simpl in H.
    apply orb_false_iff in H as [H H4]. apply orb_false_iff in H as [H H3].
    apply orb_false_iff in H as [H1 H2]. rewrite H1, H2, H3, H4. by rewrite IH.
  - by rewrite IH.
Qed.

Lemma starts_with_prefix p a b : starts_with p a = true → starts_with p (a ++ b) = true.
Proof.
  revert a. induction p as [|x p IH]; intros [|y a]; simpl; try done.
  intros [-> H]%andb_true_iff. by rewrite IH.
Qed.

Lemma starts_with_shorter p p' s : starts_with (p ++ p') s = true → starts_with p s = true.
Proof.
  revert s. induction p as [|x p IH]; intros [|y s]; simpl; try done.
  intros [-> H]%andb_true_iff. by rewrite (IH s).
Qed.

Lemma starts_with_split p s : starts_with p s = true → s = p ++ drop (length p) s.
Proof.
  intros H%starts_with_take. by rewrite <- H at 1; rewrite take_drop.
Qed.

Lemma span_app_stop p a b :
  Forall (λ c, p c = true) a → (b = [] ∨ ∃ c t, b = c :: t ∧ p c = false) →
  span p (a ++ b) = (a, b).
Proof.
  intros Ha Hb. induction Ha as [|c a Hc _ IH]; simpl.
  - destruct Hb as [->|(c & t & -> & Hc)]; [done|]. simpl. by rewrite Hc.
  - by rewrite Hc, IH.
Qed.


Lemma span_spec p s :
  s = (span p s).1 ++ (span p s).2
  ∧ Forall (λ c, p c = true) (span p s).1
  ∧ ((span p s).2 = [] ∨ ∃ c t, (span p s).2 = c :: t ∧ p c = false).
Proof.
  induction s as [|c s (IH1 & IH2 & IH3)]; simpl; [by split_and!; [|constructor|left]|].
  destruct (p c) eqn:E.
  - destruct (span p s) as [a b]. simpl in *. split_and!.
    + by rewrite IH1 at 1.
    + by constructor.
    + done.
  - simpl. split_and!; [done|constructor|]. right. by exists c, s.
Qed.

End JSFacts.

Module HeFacts.
Import JS He JSFacts.

Ltac bmp_arith :=
  unfold stable, regexBmpWhitelist, in_range in *;
  rewrite ?orb_false_iff, ?andb_false_iff, ?N.leb_gt, ?N.eqb_neq in *; lia.

Lemma stable_printable c : (32 ≤ c < 127)%N → stable c.
Proof. intros. bmp_arith. Qed.

Lemma stable_low c : stable c → (c < 0xA0)%N.
Proof. intros. bmp_arith. Qed.

Lemma stable_not_tab c : stable c → c ≠ 9%N.
Proof. intros. bmp_arith. Qed.

Lemma hex_digit_stable n : stable (hex_digit (n mod 16)).
Proof.
  apply stable_printable. unfold hex_digit.
  assert (n mod 16 < 16)%N as H by (apply N.mod_upper_bound; lia).
  revert H. generalize (n mod 16)%N. intros d H.
  destruct (N.ltb_spec d 10); lia.
Qed.

Lemma hex_from_stable fuel : ∀ n acc,
  Forall stable acc → Forall stable (hex_from fuel n acc).
Proof.
  induction fuel as [|f IH]; intros n acc H; simpl; [done|].
  destruct (n / 16 =? 0)%N.
  - constructor; [apply hex_digit_stable | done].
  - apply IH. constructor; [apply hex_digit_stable | done].
Qed.

Lemma hexEscape_stable cp : Forall stable (hexEscape cp).
Proof.
  unfold hexEscape. rewrite !Forall_app. split_and!.
  - repeat constructor.
  - apply hex_from_stable. constructor.
  - repeat constructor.
Qed.

Lemma escapeBmpSymbol_cons c s :
  escapeBmpSymbol (c :: s)
  = (if regexBmpWhitelist c then hexEscape c else [c]) ++ escapeBmpSymbol s.
Proof. reflexivity. Qed.

Lemma escapeBmpSymbol_stable s : Forall stable (escapeBmpSymbol s).
Proof.
  induction s as [|c s IH]; [constructor|].
  rewrite escapeBmpSymbol_cons, Forall_app. split; [|done].
  destruct (regexBmpWhitelist c) eqn:E; [apply hexEscape_stable|].
  by constructor.
Qed.

Lemma escapeBmpSymbol_fixed s : Forall stable s → escapeBmpSymbol s = s.
Proof.
  induction 1 as [|c s Hc _ IH]; [done|].
  rewrite escapeBmpSymbol_cons, Hc, IH. done.
Qed.

Lemma replace_tab_cons c s :
  replace_class (λ c, (c =? 9)%N) (js " ") (c :: s)
  = (if (c =? 9)%N then js " " else [c]) ++ replace_class (λ c, (c =? 9)%N) (js " ") s.
Proof. reflexivity. Qed.

Lemma replace_tab_fixed s :
  Forall stable s → replace_class (λ c, (c =? 9)%N) (js " ") s = s.
Proof.
  induction 1 as [|c s Hc _ IH]; [done|].
  rewrite replace_tab_cons, IH.
  apply stable_not_tab, N.eqb_neq in Hc. by rewrite Hc.
Qed.

Lemma literal_miss_unstable p c s subst :
  c ∈ p → ¬ stable c → Forall stable s →
  replace_global (literal_match p) subst s = s.
Proof.
  intros Hc Hn Hs. apply replace_global_miss. intros k.
  unfold literal_match. destruct (starts_with p (drop k s)) eqn:E; [|done].
  exfalso. apply Hn. eapply starts_with_elem in E; [|exact Hc].
  rewrite Forall_forall in Hs. apply Hs.
  rewrite <- (take_drop k s). apply elem_of_app. by right.
Qed.

Lemma astral_miss s subst :
  Forall stable s → replace_global regexAstralSymbols subst s = s.
Proof.
  intros Hs. apply replace_global_miss. intros k.
  assert (Forall stable (drop k s)) as Hd by by apply Forall_drop.
  destruct (drop k s) as [|h [|l t]]; [done..|].
  simpl. destruct (in_range 55296 56319 h) eqn:E; [|done].
  exfalso. apply Forall_cons in Hd as [Hh _]. apply stable_low in Hh.
  unfold in_range in E. apply andb_true_iff in E as [E _]. apply N.leb_le in E. lia.
Qed.

Section Encode.
Variable regexEncodeNonAscii : list N → option nat.
Variable encodeMap : list N → list N.
(** Every match of [regexEncodeNonAscii] holds a code unit from [\xA0] on. *)
Hypothesis match_non_ascii : ∀ s k,
  regexEncodeNonAscii s = Some k → ∃ c, c ∈ take k s ∧ (0xA0 ≤ c)%N.

Lemma named_miss s subst :
  Forall stable s → replace_global regexEncodeNonAscii subst s = s.
Proof.
  intros Hs. apply replace_global_miss. intros k.
  destruct (regexEncodeNonAscii (drop k s)) as [j|] eqn:E; [|done].
  exfalso. apply match_non_ascii in E as (c & Hc & Hge).
  assert (c ∈ s) as Hin.
  { rewrite <- (take_drop k s). apply elem_of_app. right.
    rewrite <- (take_drop j (drop k s)). apply elem_of_app. by left. }
  rewrite Forall_forall in Hs. apply Hs, stable_low in Hin. lia.
Qed.

Lemma encode_fixed s :
  Forall stable s → encode regexEncodeNonAscii encodeMap s = s.
Proof.
  intros Hs. unfold encode.
  rewrite (literal_miss_unstable _ 0x20D2%N s);
    [|apply elem_of_app; right; constructor|by vm_compute|done].
  rewrite (literal_miss_unstable _ 0x20D2%N s);
    [|apply elem_of_app; right; constructor|by vm_compute|done].
  rewrite named_miss by done. rewrite astral_miss by done.
  by apply escapeBmpSymbol_fixed.
Qed.

Lemma secureHtml_stable html :
  Forall stable (Download.secureHtml regexEncodeNonAscii encodeMap html).
Proof. apply escapeBmpSymbol_stable. Qed.

Lemma secureHtml_fixed html :
  Forall stable html → Download.secureHtml regexEncodeNonAscii encodeMap html = html.
Proof.
  intros Hs. unfold Download.secureHtml.
  rewrite replace_tab_fixed by done. by apply encode_fixed.
Qed.

Lemma secureHtml_idempotent html :
  Download.secureHtml regexEncodeNonAscii encodeMap
    (Download.secureHtml regexEncodeNonAscii encodeMap html)
  = Download.secureHtml regexEncodeNonAscii encodeMap html.
Proof. apply secureHtml_fixed, secureHtml_stable. Qed.

Lemma secureHtml_no_tab html :
  9%N ∉ Download.secureHtml regexEncodeNonAscii encodeMap html.
Proof.
  intros Hin. pose proof (secureHtml_stable html) as Hs.
  rewrite Forall_forall in Hs. by apply Hs, stable_not_tab in Hin.
Qed.
End Encode.

Lemma sample_match_non_ascii s k :
  Sample.regexEncodeNonAscii s = Some k → ∃ c, c ∈ take k s ∧ (0xA0 ≤ c)%N.
Proof.
  destruct s as [|c s]; [done|]. unfold Sample.regexEncodeNonAscii.
  case_bool_decide as Hc; [|done]. intros [= <-]. exists c. split; [left|].
  rewrite !elem_of_cons, elem_of_nil in Hc. lia.
Qed.

(** C8. Provided every named reference of [he] stands for symbols of
    which one is not ASCII: on an input without tabs and without unsafe
    symbols [secureHtml] is idempotent, and whatever the input its output
    holds no tab. *)
Theorem secureHtml_idempotent_and_tab_free
    (regexEncodeNonAscii : list N → option nat) (encodeMap : list N → list N)
    (html : list N) :
  (∀ s k, regexEncodeNonAscii s = Some k → ∃ c, c ∈ take k s ∧ (0xA0 ≤ c)%N) →
  9%N ∉ html → Forall (λ c, is_unsafe c = false) html →
  Download.secureHtml regexEncodeNonAscii encodeMap
    (Download.secureHtml regexEncodeNonAscii encodeMap html)
  = Download.secureHtml regexEncodeNonAscii encodeMap html
  ∧ ∀ x, 9%N ∉ Download.secureHtml regexEncodeNonAscii encodeMap x.
Proof.
  intros Hlib _ _. split.
  - by apply secureHtml_idempotent.
  - intros x. apply secureHtml_no_tab.
Qed.

Lemma secureHtml_idempotent_and_tab_free_witness :
  let html := js "caf" ++ [0xE9%N] ++ js " 5 " ++ [0x20AC%N] in
  (9%N ∉ html) ∧ Forall (λ c, is_unsafe c = false) html
  ∧ Download.secureHtml Sample.regexEncodeNonAscii Sample.encodeMap
      (Download.secureHtml Sample.regexEncodeNonAscii Sample.encodeMap html)
    = Download.secureHtml Sample.regexEncodeNonAscii Sample.encodeMap html
  ∧ ∀ x, 9%N ∉ Download.secureHtml Sample.regexEncodeNonAscii Sample.encodeMap x.
Proof.
  intros html.
  assert (9%N ∉ html) as H1
    by (apply (bool_decide_eq_false_1 (9%N ∈ html)); vm_compute; reflexivity).
  assert (Forall (λ c, is_unsafe c = false) html) as H2 by (repeat constructor).
  split; [exact H1|]. split; [exact H2|].
  exact (secureHtml_idempotent_and_tab_free Sample.regexEncodeNonAscii Sample.encodeMap
           html sample_match_non_ascii H1 H2).
Defined.

Example secureHtml_sample :
  Download.secureHtml Sample.regexEncodeNonAscii Sample.encodeMap
    (js "a" ++ [9; 0xE9; 0xD83D; 0xDE00; 7]%N)
  = js "a &eacute;&#x1F600;&#x7;".
Proof. vm_compute. reflexivity. Qed.

End HeFacts.

Module UrlFacts.
Import JS Download JSFacts.















Lemma escaped_code_keeps c e :
  Url.escaped_code c Url.escapedCodes = Some e → (63%N ∉ e) ∧ (35%N ∉ e).
Proof.
  unfold Url.escapedCodes. cbn [Url.escaped_code].
  repeat match goal with
         | |- context [(c =? ?k)%N] =>
             destruct (N.eqb_spec c k) as [_|_];
             [intros [= <-]; split; intros Hin; vm_compute in Hin;
              repeat (apply elem_of_cons in Hin as [Hin|Hin]; [discriminate|]);
              by apply elem_of_nil in Hin|]
         end.
  done.
Qed.










Lemma replace_class_single p r s :
  replace_class p [r] s = (λ c, if p c then r else c) <$> s.
Proof.
  induction s as [|c s IH]; [done|].
  change (replace_class p [r] (c :: s))
    with ((if p c then [r] else [c]) ++ replace_class p [r] s).
  rewrite IH. rewrite fmap_cons. by destruct (p c).
Qed.




Lemma replace_slash p : replace_class is_slash (js " ") p = slash_to_space <$> p.
Proof. apply (replace_class_single is_slash 32%N). Qed.

Lemma replace_space p :
  replace_class is_space (js "-") p = (λ c, if is_space c then 45%N else c) <$> p.
Proof. apply (replace_class_single is_space 45%N). Qed.





(** What the parser does to the path before [getImageName] sees it: a
    blank and braces are escaped, a backslash is a slash, white space around
    the URL is dropped. *)
Example getImageName_of_escaped_paths :
  getImageName (js "http://a.com/img/2018/x y.png") = Some (js "img-2018-x%20y.png")
  ∧ getImageName (js "http://a.com/x{1}.png") = Some (js "x%7B1%7D.png")
  ∧ getImageName (js "http://a.com/a\b.png") = Some (js "a-b.png")
  ∧ getImageName (js "http://a.com/a.png  ") = Some (js "a.png")
  ∧ getImageName (js "httpdocs/logo.png") = Some (js "httpdocs-logo.png").
Proof. split_and!; vm_compute; reflexivity. Qed.

End UrlFacts.

Module RewriteFacts.
Import JS Download JSFacts.

Lemma includes_false u s k : includes u s = false → starts_with u (drop k s) = false.
Proof.
  intros H. destruct (starts_with u (drop k s)) eqn:E; [|done].
  assert (includes u s = true) by (apply includes_spec; eauto). congruence.
Qed.

Lemma literal_first_occurrence u a t k :
  u ≠ [] → first_at_end u a → k < length a →
  literal_match u (drop k (a ++ u ++ t)) = None.
Proof.
  intros Hu Hfirst Hk. unfold literal_match.
  destruct (starts_with u (drop k (a ++ u ++ t))) eqn:E; [|done].
  exfalso. apply (includes_false _ _ k) in Hfirst.
  assert (starts_with u (drop k (a ++ take (length u - 1) u)) = true); [|congruence].
  apply starts_with_take. apply starts_with_take in E.
  rewrite <- (take_drop (length u - 1) u) in E at 2.
  rewrite <- app_assoc, app_assoc, drop_app_le in E by (rewrite length_app; lia).
  rewrite take_app_le in E; [done|].
  assert (length u ≠ 0) by (by destruct u).
  rewrite length_drop, length_app, length_take. lia.
Qed.

Lemma literal_match_here c u t :
  literal_match (c :: u) (c :: u ++ t) = Some (S (length u)).
Proof.
  unfold literal_match. change (c :: u ++ t) with ((c :: u) ++ t).
  by rewrite starts_with_app.
Qed.

Lemma replace_pass u rel segs last :
  u ≠ [] → has_dollar_pattern rel = false →
  Forall (first_at_end u) segs → includes u last = false →
  ∀ b, replace_from (literal_match u) (get_substitution rel) 0 b (join_with u segs last)
       = join_with rel segs last.
Proof.
  intros Hu Hrel Hsegs Hlast. induction Hsegs as [|s segs Hs _ IH]; intros b; simpl.
  - rewrite <- (app_nil_r last) at 1. rewrite replace_from_miss; [by rewrite app_nil_r|].
    intros k _. unfold literal_match. rewrite app_nil_r.
    by rewrite includes_false.
  - rewrite replace_from_miss by (intros k Hk; by apply literal_first_occurrence).
    f_equal. destruct u as [|c u]; [done|].
    change ((c :: u) ++ ?x) with (c :: u ++ x).
    rewrite (replace_from_hit _ _ c (length u)).
    + rewrite take_app_length, drop_app_length.
      rewrite get_substitution_plain by done. f_equal. apply IH.
    + apply literal_match_here.
    + rewrite length_app. lia.
Qed.

Lemma rewrite_step_pass u rel segs last :
  u ≠ [] → relativeUrl u = Some rel → has_dollar_pattern rel = false →
  Forall (first_at_end u) segs → includes u last = false →
  rewrite_step (join_with u segs last) u = Some (join_with rel segs last).
Proof.
  intros Hu Hr Hd Hs Hl. unfold rewrite_step. rewrite Hr, regexp_literal_escape. simpl.
  f_equal. by apply replace_pass.
Qed.

Lemma rewrite_html_failed images :
  foldl (λ acc u, h ← acc; rewrite_step h u) None images = None.
Proof. induction images as [|u l IH]; [done|]. simpl. apply IH. Qed.

Lemma rewrite_html_cons html u images :
  rewrite_html html (u :: images) = h ← rewrite_step html u; rewrite_html h images.
Proof.
  unfold rewrite_html. simpl. destruct (rewrite_step html u); simpl; [done|].
  apply rewrite_html_failed.
Qed.

Lemma join_with_includes u s segs last : includes u (join_with u (s :: segs) last) = true.
Proof.
  apply includes_spec. exists (length s). simpl.
  rewrite drop_app_length. apply starts_with_app.
Qed.

Lemma rewrites_sound html images out :
  Rewrites html images out → rewrite_html html images = Some out.
Proof.
  induction 1 as [|u rel segs last rest out Hu Hr Hd Hs Hl _ IH]; [done|].
  rewrite rewrite_html_cons, (rewrite_step_pass u rel) by done. exact IH.
Qed.

Lemma rewrites_unchanged html images out :
  Rewrites html images out →
  (∀ u, u ∈ images → includes u html = false) → out = html.
Proof.
  induction 1 as [|u rel segs last rest out Hu Hr Hd Hs Hl _ IH]; [done|].
  intros Hno. destruct segs as [|s segs].
  - simpl in *. apply IH. intros v Hv. apply Hno. by right.
  - specialize (Hno u ltac:(left)). rewrite join_with_includes in Hno. done.
Qed.

(** C5, as the code has it. The rewrite takes the manifest entries one
    after the other, each in one pass over the HTML the earlier passes left:
    a pass over [s0 u s1 u ... last], where the URL [u] occurs at the shown
    places only and its path [images/<name>] holds none of the patterns a
    replacement text expands (a dollar followed by a dollar, an ampersand, a
    backquote or a quote), gives [s0 images/<name> s1 images/<name> ... last];
    and an HTML in which no manifest URL occurs comes out unchanged. *)
Theorem rewrite_html_passes (html : list N) (images : list (list N)) (out : list N) :
  Rewrites html images out →
  rewrite_html html images = Some out
  ∧ ((∀ u, u ∈ images → includes u html = false) → out = html).
Proof.
  intros H. split; [by apply rewrites_sound | by apply rewrites_unchanged].
Qed.

Lemma rewrite_html_passes_witness :
  rewrite_html Sample.versioned_html (allImages Sample.versioned_doc)
  = Some (js "<img src='images/x.png'><img src='images/x.png?v=2'>").
Proof.
  assert (Rewrites Sample.versioned_html (allImages Sample.versioned_doc)
            (js "<img src='images/x.png'><img src='images/x.png?v=2'>")) as H.
  { change Sample.versioned_html
      with (join_with (js "http://a.com/x.png")
              [js "<img src='"; js "'><img src='"] (js "?v=2'>")).
    change (allImages Sample.versioned_doc)
      with [js "http://a.com/x.png"; js "http://a.com/x.png?v=2"].
    apply (rewrites_pass _ (js "images/x.png")).
    - done.
    - reflexivity.
    - reflexivity.
    - repeat constructor.
    - reflexivity.
    - change (join_with (js "images/x.png") [js "<img src='"; js "'><img src='"] (js "?v=2'>"))
        with (join_with (js "http://a.com/x.png?v=2") []
                (js "<img src='images/x.png'><img src='images/x.png?v=2'>")).
      apply (rewrites_pass _ (js "images/x.png")).
      + done.
      + reflexivity.
      + reflexivity.
      + constructor.
      + reflexivity.
      + apply rewrites_done. }
  exact (proj1 (rewrite_html_passes _ _ _ H)).
Defined.

(** Against C5 as stated: after the rewrite the URL of the image is still
    in the HTML of the first document; and in the second document the second
    URL, which holds the first, does not get its own path. *)
Lemma rewrite_leaves_manifest_url :
  allImages Sample.nested_doc = [js "http://a.com/i"]
  ∧ rewrite_html Sample.nested_html (allImages Sample.nested_doc)
    = Some (js "<img src='images/i'><a href='http://a.com/images/i'>")
  ∧ includes (js "http://a.com/i")
      (js "<img src='images/i'><a href='http://a.com/images/i'>") = true
  ∧ allImages Sample.versioned_doc
    = [js "http://a.com/x.png"; js "http://a.com/x.png?v=2"]
  ∧ relativeUrl (js "http://a.com/x.png?v=2") = Some (js "images/x.png")
  ∧ rewrite_html Sample.versioned_html (allImages Sample.versioned_doc)
    = Some (js "<img src='images/x.png'><img src='images/x.png?v=2'>").
Proof. split_and!; vm_compute; reflexivity. Qed.

(** A dollar that begins no pattern is replaced as it stands. *)
Example rewrite_keeps_plain_dollar :
  Rewrites (js "<img src='http://a.com/a$b.png'>") [js "http://a.com/a$b.png"]
    (js "<img src='images/a$b.png'>").
Proof.
  change (js "<img src='http://a.com/a$b.png'>")
    with (join_with (js "http://a.com/a$b.png") [js "<img src='"] (js "'>")).
  change (js "<img src='images/a$b.png'>")
    with (join_with (js "images/a$b.png") [js "<img src='"] (js "'>")).
  apply (rewrites_pass _ (js "images/a$b.png")).
  - done.
  - vm_compute. reflexivity.
  - reflexivity.
  - repeat constructor.
  - reflexivity.
  - apply rewrites_done.
Qed.

Example rewrite_expands_dollar_patterns :
  rewrite_html (js "<img src='http://a.com/$&.png'>") [js "http://a.com/$&.png"]
  = Some (js "<img src='images/http://a.com/$&.png.png'>").
Proof. vm_compute. reflexivity. Qed.

End RewriteFacts.

Module ManifestFacts.
Import JS Download JSFacts RewriteFacts.

Lemma push_new_elem x y acc : x ∈ push_new acc y ↔ x ∈ acc ∨ x = y.
Proof.
  unfold push_new. case_bool_decide as H.
  - split; [by left|]. intros [?| ->]; done.
  - rewrite elem_of_app, list_elem_of_singleton. done.
Qed.

Lemma push_new_NoDup y acc : NoDup acc → NoDup (push_new acc y).
Proof.
  intros Hnd. unfold push_new. case_bool_decide as H; [done|].
  apply NoDup_app. split_and!; [done| |apply NoDup_singleton].
  intros x Hx Hy. apply list_elem_of_singleton in Hy. by subst.
Qed.

Lemma foldl_push_new_elem x l : ∀ acc,
  x ∈ foldl push_new acc l ↔ x ∈ acc ∨ x ∈ l.
Proof.
  induction l as [|y l IH]; intros acc; simpl.
  - rewrite elem_of_nil. tauto.
  - rewrite IH, push_new_elem, elem_of_cons. tauto.
Qed.

Lemma foldl_push_new_NoDup l : ∀ acc, NoDup acc → NoDup (foldl push_new acc l).
Proof.
  induction l as [|y l IH]; intros acc H; simpl; [done|].
  by apply IH, push_new_NoDup.
Qed.

Lemma uniq_elem x l : x ∈ uniq l ↔ x ∈ l.
Proof. unfold uniq. rewrite foldl_push_new_elem, elem_of_nil. tauto. Qed.

Lemma uniq_NoDup l : NoDup (uniq l).
Proof. apply foldl_push_new_NoDup, NoDup_nil_2. Qed.

Lemma isHttpUrl_nonempty u : isHttpUrl u = true → u ≠ [].
Proof. by intros H ->. Qed.

Lemma push_style_elem x style acc :
  x ∈ push_style acc style
  ↔ x ∈ acc ∨ (style_url style = Some x ∧ isHttpUrl x = true).
Proof.
  unfold push_style. destruct (style_url style) as [u|].
  - destruct (isHttpUrl u) eqn:Eh.
    + case_bool_decide as Hne; [|by apply isHttpUrl_nonempty in Eh].
      case_bool_decide as Hin; simpl.
      * split; [by left|]. intros [?|[[= ->] _]]; done.
      * rewrite elem_of_app, list_elem_of_singleton. split.
        -- intros [?| ->]; [by left | by right].
        -- intros [?|[[= ->] _]]; [by left | by right].
    + rewrite andb_false_r. simpl. split; [by left|].
      intros [?|[[= ->] ?]]; [done | congruence].
  - split; [by left|]. intros [?|[? _]]; done.
Qed.

Lemma push_style_NoDup style acc : NoDup acc → NoDup (push_style acc style).
Proof.
  intros Hnd. unfold push_style. destruct (style_url style) as [u|]; [|done].
  destruct (_ && _ && negb (bool_decide (u ∈ acc))) eqn:E; [|done].
  apply andb_true_iff in E as [_ E]. apply negb_true_iff, bool_decide_eq_false in E.
  apply NoDup_app. split_and!; [done| |apply NoDup_singleton].
  intros x Hx Hy. apply list_elem_of_singleton in Hy. by subst.
Qed.

Lemma foldl_push_style_elem x styles : ∀ acc,
  x ∈ foldl push_style acc styles
  ↔ x ∈ acc ∨ ∃ style, style ∈ styles ∧ style_url style = Some x ∧ isHttpUrl x = true.
Proof.
  induction styles as [|s l IH]; intros acc; simpl.
  - split; [by left|]. intros [?|(? & H & _)]; [done|]. by apply elem_of_nil in H.
  - rewrite IH, push_style_elem. split.
    + intros [[?|?]|(st & ? & ?)]; [by left| |].
      * right. exists s. split; [left|done].
      * right. exists st. split; [by right|done].
    + intros [?|(st & Hin & ?)]; [by left; left|].
      apply elem_of_cons in Hin as [->|?]; [left; by right|].
      right. by exists st.
Qed.

Lemma foldl_push_style_NoDup styles : ∀ acc,
  NoDup acc → NoDup (foldl push_style acc styles).
Proof.
  induction styles as [|s l IH]; intros acc H; simpl; [done|].
  by apply IH, push_style_NoDup.
Qed.

Lemma imgUrls_elem doc u : u ∈ imgUrls doc ↔ isHttpUrl u = true ∧ img_src doc u.
Proof.
  unfold imgUrls, img_src. rewrite uniq_elem, list_elem_of_filter, list_elem_of_omap.
  split.
  - intros (? & el & Hel & ?). split; [done|]. exists el.
    apply list_elem_of_filter in Hel as [Htag ?].
    unfold is_img in Htag. apply bool_decide_eq_true in Htag. done.
  - intros (? & el & ? & Htag & ?). split; [done|]. exists el. split; [|done].
    apply list_elem_of_filter. split; [|done]. unfold is_img. by apply bool_decide_eq_true.
Qed.

Lemma bgUrls_elem doc u : u ∈ bgUrls doc ↔ isHttpUrl u = true ∧ background_of doc u.
Proof.
  unfold bgUrls, background_of. rewrite uniq_elem, list_elem_of_filter, list_elem_of_omap.
  done.
Qed.

Lemma styleUrls_elem doc u :
  u ∈ styleUrls doc ↔ isHttpUrl u = true ∧ style_reference doc u.
Proof.
  unfold styleUrls, style_reference. rewrite foldl_push_style_elem, elem_of_nil.
  split.
  - intros [[]|(style & Hin & ? & ?)]. split; [done|].
    apply list_elem_of_omap in Hin as (el & ? & ?). by exists el, style.
  - intros (? & el & style & ? & ? & ?). right. exists style. split; [|done].
    apply list_elem_of_omap. by exists el.
Qed.

(** *** The reference of a style *)

Lemma style_url_cons c t :
  style_url (c :: t)
  = if starts_with (js "url(") (c :: t) then
      let r := drop 4 (c :: t) in
      let r := match r with
               | d :: t' => if (d =? 39)%N then t' else r
               | [] => r
               end in
      Some (span (λ c, negb ((c =? 41)%N || (c =? 39)%N)) r).1
    else style_url t.
Proof. reflexivity. Qed.

Lemma style_url_skip pre r :
  first_at_end (js "url(") pre →
  style_url (pre ++ js "url(" ++ r) = style_url (js "url(" ++ r).
Proof.
  intros Hfirst.
  assert (∀ k, k < length pre →
            starts_with (js "url(") (drop k (pre ++ js "url(" ++ r)) = false) as H.
  { intros k Hk. pose proof (literal_first_occurrence (js "url(") pre r k) as Hl.
    unfold literal_match in Hl. destruct (starts_with _ _); [|done].
    by discriminate Hl. }
  clear Hfirst. induction pre as [|c pre IH]; [done|].
  change ((c :: pre) ++ ?x) with (c :: pre ++ x).
  rewrite style_url_cons. pose proof (H 0 ltac:(simpl; lia)) as H0.
  rewrite drop_0 in H0.
  change ((c :: pre) ++ ?x) with (c :: pre ++ x) in H0. rewrite H0.
  apply IH. intros k Hk. apply (H (S k)). simpl. lia.
Qed.

Lemma span_stop p a c t :
  Forall (λ x, p x = true) a → p c = false → (span p (a ++ c :: t)).1 = a.
Proof.
  intros Ha Hc. rewrite span_app_stop; [done..|]. right. by exists c, t.
Qed.

Lemma style_pattern r : js "url(" ++ r = 117%N :: 114%N :: 108%N :: 40%N :: r.
Proof. reflexivity. Qed.

(** A bare reference, up to a closing parenthesis, a single quote or the
    end of the style. *)
Lemma style_url_bare pre u rest :
  first_at_end (js "url(") pre →
  Forall (λ c, c ≠ 41%N ∧ c ≠ 39%N) u →
  (rest = [] ∨ head rest = Some 41%N ∨ head rest = Some 39%N) →
  head (u ++ rest) ≠ Some 39%N →
  style_url (pre ++ js "url(" ++ u ++ rest) = Some u.
Proof.
  intros Hpre Hu Hrest Hhead.
  assert (Forall (λ x, negb ((x =? 41)%N || (x =? 39)%N) = true) u) as Hu'.
  { eapply Forall_impl; [exact Hu|]. intros c [H1 H2].
    apply N.eqb_neq in H1, H2. by rewrite H1, H2. }
  rewrite style_url_skip by done. rewrite style_pattern, style_url_cons.
  simpl starts_with. cbv beta iota zeta. cbn [drop]. rewrite !drop_0.
  assert (match u ++ rest with
          | d :: t' => if (d =? 39)%N then t' else u ++ rest
          | [] => u ++ rest
          end = u ++ rest) as ->.
  { destruct (u ++ rest) as [|d t'] eqn:E; [done|].
    destruct (N.eqb_spec d 39) as [->|_]; [|done]. by destruct Hhead. }
  f_equal. rewrite span_app_stop; [done..|].
  destruct Hrest as [->|[Hr|Hr]]; [by left| |];
    destruct rest as [|c t]; simpl in Hr; simplify_eq; right; by eexists _, _.
Qed.

(** A reference after a single quote. *)
Lemma style_url_single_quoted pre u post :
  first_at_end (js "url(") pre →
  Forall (λ c, c ≠ 41%N ∧ c ≠ 39%N) u →
  style_url (pre ++ js "url(" ++ 39%N :: u ++ 39%N :: post) = Some u.
Proof.
  intros Hpre Hu.
  assert (Forall (λ x, negb ((x =? 41)%N || (x =? 39)%N) = true) u) as Hu'.
  { eapply Forall_impl; [exact Hu|]. intros c [H1 H2].
    apply N.eqb_neq in H1, H2. by rewrite H1, H2. }
  rewrite style_url_skip by done. rewrite style_pattern, style_url_cons.
  simpl starts_with. cbv beta iota zeta. cbn [drop].
  rewrite ?drop_0, ?N.eqb_refl. by rewrite span_stop.
Qed.

(** What [style_url] finds is what follows the first [url(]. *)
Lemma style_url_follows style u : style_url style = Some u → follows_url style u.
Proof.
  induction style as [|c t IH]; [done|].
  rewrite style_url_cons. destruct (starts_with (js "url(") (c :: t)) eqn:E.
  - apply starts_with_split in E. change (length (js "url(")) with 4 in E.
    set (r := drop 4 (c :: t)) in *. cbv zeta. intros [= Hu].
    destruct (span_spec (λ c, negb ((c =? 41)%N || (c =? 39)%N))
                match r with
                | d :: t' => if (d =? 39)%N then t' else r
                | [] => r
                end) as (Hs1 & Hs2 & Hs3).
    rewrite Hu in Hs1, Hs2.
    set (rest := (span _ _).2) in *.
    assert (Forall (λ c, c ≠ 41%N ∧ c ≠ 39%N) u) as Hfu.
    { eapply Forall_impl; [exact Hs2|]. intros x Hx.
      apply negb_true_iff, orb_false_iff in Hx as [H1 H2].
      by apply N.eqb_neq in H1, H2. }
    assert (rest = [] ∨ head rest = Some 41%N ∨ head rest = Some 39%N) as Hrest.
    { destruct Hs3 as [->|(x & y & -> & Hx)]; [by left|]. right.
      apply negb_false_iff, orb_true_iff in Hx as [Hx|Hx]; apply N.eqb_eq in Hx;
        subst x; [by left | by right]. }
    destruct r as [|d t'] eqn:Er.
    + exists [], [], rest. split_and!; try done; [by left| |].
      * by rewrite E, <- Hs1.
      * rewrite <- Hs1. done.
    + destruct (N.eqb_spec d 39) as [->|Hd].
      * exists [], [39%N], rest. split_and!; try done; [by right|].
        rewrite E. simpl. by rewrite <- Hs1.
      * exists [], [], rest. split_and!; try done; [by left| |].
        -- by rewrite E, <- Hs1.
        -- rewrite <- Hs1. simpl. congruence.
  - intros (pre & q & rest & Hpre & Hq & -> & Hu & Hhead & Hrest)%IH.
    exists (c :: pre), q, rest. split_and!; try done.
    unfold first_at_end in *. change ((c :: pre) ++ ?x) with (c :: pre ++ x).
    cbn [includes]. rewrite Hpre, orb_false_r.
    destruct (starts_with (js "url(") (c :: pre ++ take (length (js "url(") - 1) (js "url(")))
      eqn:E'; [|done].
    apply (starts_with_prefix _ _ (40%N :: q ++ u ++ rest)) in E'.
    change (take (length (js "url(") - 1) (js "url(")) with (js "url") in E'.
    change (js "url(" ++ ?x) with (js "url" ++ 40%N :: x) in E.
    change ((c :: ?a) ++ ?b) with (c :: a ++ b) in E'.
    rewrite <- app_assoc in E'. congruence.
Qed.

Lemma isHttpUrl_prefix u : isHttpUrl u = true ↔ ∃ t, u = js "http" ++ t.
Proof.
  unfold isHttpUrl. split.
  - intros H%starts_with_split. by eexists.
  - intros [t ->]. apply starts_with_app.
Qed.

Lemma lower_http_isHttpUrl u : lower_http u = true → isHttpUrl u = true.
Proof.
  unfold lower_http, isHttpUrl. intros [H|H]%orb_true_iff.
  - by apply (starts_with_shorter (js "http") (js "://")).
  - by apply (starts_with_shorter (js "http") (js "s://")).
Qed.

(** C4. The manifest holds no URL twice.  Each of its entries begins
    with the letters [http] and is the [src] of an [img], a [background]
    attribute, or what follows the first [url(] of a [style] attribute.  And
    it holds every reference that begins with [http://] or [https://] in
    lower case and is the [src] of an [img], a [background] attribute, or the
    first [url(...)] of a [style] attribute written bare or in single quotes,
    however often and in however many shapes the reference occurs.  A
    reference that does not begin with [http] is never in it. *)
Theorem manifest_is_deduplicated_http_references (doc : list element) :
  NoDup (allImages doc)
  ∧ (∀ u, u ∈ allImages doc →
       (∃ t, u = js "http" ++ t)
       ∧ (img_src doc u ∨ background_of doc u
          ∨ ∃ el style, el ∈ doc ∧ attr el (js "style") = Some style
                        ∧ follows_url style u))
  ∧ (∀ u, lower_http u = true →
       img_src doc u ∨ background_of doc u ∨ style_reference_of [[]; [39%N]] doc u →
       u ∈ allImages doc)
  ∧ (∀ u, (∀ t, u ≠ js "http" ++ t) → u ∉ allImages doc).
Proof.
  assert (∀ u, u ∈ allImages doc
               ↔ isHttpUrl u = true
                 ∧ (img_src doc u ∨ background_of doc u ∨ style_reference doc u)) as Hin.
  { intros u. unfold allImages.
    rewrite uniq_elem, !elem_of_app, imgUrls_elem, bgUrls_elem, styleUrls_elem. tauto. }
  split_and!.
  - apply uniq_NoDup.
  - intros u [Hh Hu]%Hin. split; [by apply isHttpUrl_prefix|].
    destruct Hu as [?|[?|(el & style & ? & ? & Hs)]]; [by left | by right; left |].
    right; right. exists el, style. split_and!; [done..|]. by apply style_url_follows.
  - intros u Hh Hu. apply Hin. split; [by apply lower_http_isHttpUrl|].
    destruct Hu as [?|[?|(el & style & q & Hel & Ha & Hq & pre & post & Hpre & Hfu & ->)]];
      [by left | by right; left |].
    right; right. exists el, (pre ++ js "url(" ++ q ++ u ++ q ++ 41%N :: post).
    split_and!; [done..|].
    assert (Forall (λ c, c ≠ 41%N ∧ c ≠ 39%N) u) as Hfu'.
    { eapply Forall_impl; [exact Hfu|]. intros c (? & ? & ?). done. }
    apply elem_of_cons in Hq as [->|Hq]; [|apply list_elem_of_singleton in Hq as ->].
    + change ([] ++ u ++ [] ++ 41%N :: post) with (u ++ 41%N :: post).
      apply style_url_bare; [done..|by right; left|].
      apply lower_http_isHttpUrl, isHttpUrl_prefix in Hh as [t ->]. done.
    + change ([39%N] ++ u ++ [39%N] ++ 41%N :: post) with (39%N :: u ++ 39%N :: 41%N :: post).
      by apply style_url_single_quoted.
  - intros u Hu [Hh _]%Hin. apply isHttpUrl_prefix in Hh as [t ->]. by apply (Hu t).
Qed.

Lemma manifest_is_deduplicated_http_references_witness :
  lower_http (js "http://a.com/z.png") = true
  ∧ style_reference_of [[]; [39%N]] Sample.styled_cell (js "http://a.com/z.png")
  ∧ js "http://a.com/z.png" ∈ allImages Sample.styled_cell
  ∧ (∀ t, js "logo.png" ≠ js "http" ++ t)
  ∧ js "logo.png" ∉ allImages Sample.styled_cell.
Proof.
  assert (lower_http (js "http://a.com/z.png") = true) as H1 by reflexivity.
  assert (style_reference_of [[]; [39%N]] Sample.styled_cell (js "http://a.com/z.png"))
    as H2.
  { eexists _, _, []. split; [left|]. split; [reflexivity|]. split; [left|].
    exists (js "color:red;background:"), []. split; [vm_compute; reflexivity|].
    split; [|reflexivity].
    apply Forall_forall. intros c Hc.
    apply (bool_decide_eq_true_1 (c ≠ 41%N ∧ c ≠ 39%N ∧ c ≠ 34%N)).
    revert c Hc. apply Forall_forall. repeat constructor. }
  assert (∀ t, js "logo.png" ≠ js "http" ++ t) as H3 by (intros t; discriminate).
  destruct (manifest_is_deduplicated_http_references Sample.styled_cell)
    as (_ & _ & Hinc & Hexc).
  split; [exact H1|]. split; [exact H2|].
  split; [apply (Hinc _ H1); right; right; exact H2|].
  split; [exact H3|]. exact (Hexc _ H3).
Defined.

(** Against C4 as stated.  The relative reference [httpdocs/logo.png]
    is in the manifest, because it begins with the letters [http]; the
    absolute reference [HTTP://A.COM/X.PNG] is not, because its scheme is in
    upper case; and the absolute reference of the style is not, because it is
    written in double quotes. *)
Lemma manifest_departs_from_description :
  allImages Sample.loose_shapes = [js "httpdocs/logo.png"]
  ∧ ¬ described_manifest Sample.loose_shapes (js "httpdocs/logo.png")
  ∧ described_manifest Sample.loose_shapes (js "HTTP://A.COM/X.PNG")
  ∧ described_manifest Sample.loose_shapes (js "http://a.com/bg.png").
Proof.
  split_and!.
  - vm_compute. reflexivity.
  - intros [H _]. vm_compute in H. discriminate.
  - split; [vm_compute; reflexivity|]. left.
    eexists. split; [right; left|]. split; reflexivity.
  - split; [vm_compute; reflexivity|]. right; right.
    eexists _, _, [34%N]. split; [right; right; left|]. split; [reflexivity|].
    split; [right; right; left|].
    exists (js "background:"), []. split; [vm_compute; reflexivity|].
    split; [|reflexivity].
    apply Forall_forall. intros c Hc.
    apply (bool_decide_eq_true_1 (c ≠ 41%N ∧ c ≠ 39%N ∧ c ≠ 34%N)).
    revert c Hc. apply Forall_forall. repeat constructor.
Qed.

Example manifest_of_three_shapes :
  allImages Sample.three_shapes = [js "http://a.com/x.png"; js "http://a.com/y.png"].
Proof. vm_compute. reflexivity. Qed.

Example manifest_of_a_style :
  allImages Sample.styled_cell = [js "http://a.com/z.png"].
Proof. vm_compute. reflexivity. Qed.

End ManifestFacts.

Module ZipFacts.
Import JS Download.

Lemma forallb_id_Forall (l : list bool) :
  forallb id l = true ↔ Forall (λ d, d = true) l.
Proof.
  induction l as [|b l IH]; simpl.
  - split; [constructor | done].
  - rewrite andb_true_iff, IH, Forall_cons. done.
Qed.

Lemma continue_invariant st :
  (finalized st = true → Forall (λ d, d = true) (dfds st)) →
  (res_ended st = true → finalized st = true) →
  zip_invariant (continue st).
Proof.
  intros Hf He. unfold continue.
  destruct (negb (finalized st) && forallb id (dfds st)) eqn:E; [|by split].
  apply andb_true_iff in E as [_ E]. apply forallb_id_Forall in E.
  split; simpl; [done|]. done.
Qed.








Lemma handle_pending i ev st :
  ¬ resolves i ev → dfds st !! i = Some false → finalized st = false →
  dfds (handle ev st) !! i = Some false ∧ finalized (handle ev st) = false.
Proof.
  intros Hn Hd Hf. destruct ev as [j code|j e| |code]; simpl; try done.
  - destruct (requests st !! j) as [[u n]|]; [|done].
    destruct (code =? 200)%N eqn:E; simpl; [|done].
    apply N.eqb_eq in E. subst code.
    assert (j ≠ i) by (intros ->; apply Hn; by left).
    unfold append. rewrite Hf. simpl. by rewrite list_lookup_insert_ne.
  - destruct (requests st !! j); [|done]. simpl.
    assert (j ≠ i) by (intros ->; apply Hn; right; eauto).
    by rewrite list_lookup_insert_ne.
Qed.

Lemma continue_pending i st :
  dfds st !! i = Some false → finalized st = false →
  dfds (continue st) !! i = Some false ∧ finalized (continue st) = false.
Proof.
  intros Hd Hf. unfold continue.
  destruct (forallb id (dfds st)) eqn:E.
  - apply forallb_id_Forall in E. rewrite Forall_lookup in E. by apply E in Hd.
  - by rewrite andb_false_r.
Qed.

(** While a request is neither answered with status 200 nor failed, its
    deferred stays pending and the archive is not finalized. *)
Lemma unresolved_request_blocks_finalize i events : ∀ st,
  Forall (λ ev, ¬ resolves i ev) events →
  dfds st !! i = Some false → finalized st = false →
  dfds (run events st) !! i = Some false ∧ finalized (run events st) = false.
Proof.
  induction events as [|ev events IH]; intros st Hev Hd Hf; [done|].
  apply Forall_cons in Hev as [Hev Hrest]. simpl.
  destruct (handle_pending i ev st Hev Hd Hf) as [Hd' Hf'].
  destruct (continue_pending i _ Hd' Hf') as [Hd'' Hf''].
  by apply IH.
Qed.

Section Zip.
Variable getSlug : list N → list N.
Variable regexEncodeNonAscii : list N → option nat.
Variable encodeMap : list N → list N.
Variable load : list N → list element.

Lemma zip_started req st :
  zip getSlug regexEncodeNonAscii encodeMap load req = Started st →
  zip_invariant st
  ∧ length (dfds st) = length (allImages (load (body_html req)))
  ∧ Forall2 (λ u r, r.1 = u ∧ getImageName u = Some r.2)
      (allImages (load (body_html req))) (requests st).
Proof.
  unfold zip. destruct (mailing req); [|done].
  destruct (rewrite_html _ _); [|done].
  destruct (mapM _ _) as [reqs|] eqn:Em; [|done].
  intros [= <-]. split_and!.
  - by apply continue_invariant.
  - unfold continue. apply length_mapM in Em.
    destruct (_ && _); simpl; by rewrite length_replicate.
  - apply mapM_Some_1 in Em.
    assert (requests (continue (ZipState (getName getSlug l ++ js ".zip")
              (getName getSlug l) reqs
              [Entry (getName getSlug l ++ js ".html") (getName getSlug l ++ js "/")
                 (HtmlText (secureHtml regexEncodeNonAscii encodeMap l0))]
              (replicate (length reqs) false) false false [])) = reqs) as ->.
    { unfold continue. by destruct (_ && _). }
    eapply Forall2_impl; [exact Em|]. intros u [u' n] H. simpl.
    destruct (getImageName u); simplify_eq/=. done.
Qed.
End Zip.



(** C1, where the code departs from it. Of three images the second is
    answered with status 500: its deferred stays pending, the archive holds
    the HTML and the two other images but is not finalized and the response
    is not ended, whatever events follow short of an error or a 200 on that
    request. Had the request failed with an error instead, the archive would
    have been finalized. *)
Theorem zip_status_500_never_finalizes :
  ∃ st0,
    zip Sample.getSlug Sample.regexEncodeNonAscii Sample.encodeMap
      (λ _, Sample.three_images) Sample.newsletter = Started st0
    ∧ (let st := run [ImgResponse 0 200; ImgResponse 1 500; ImgResponse 2 200] st0 in
       dfds st = [true; false; true]
       ∧ entry_name <$> entries st = [js "news.html"; js "a.png"; js "c.png"]
       ∧ finalized st = false ∧ res_ended st = false
       ∧ ∀ later, Forall (λ ev, ¬ resolves 1 ev) later →
                  finalized (run later st) = false)
    ∧ finalized (run [ImgResponse 0 200; ImgError 1 104; ImgResponse 2 200] st0) = true.
Proof.
  eexists. split; [vm_compute; reflexivity|]. split; [|vm_compute; reflexivity].
  split_and!; [vm_compute; reflexivity..|].
  intros later Hl.
  apply (unresolved_request_blocks_finalize 1 later _ Hl); vm_compute; reflexivity.
Qed.

End ZipFacts.

Module ImageNameFacts.
Import JS Download JSFacts UrlFacts ZipFacts.



End ImageNameFacts.

Module UploadFacts.
Import JS Filemanager.

Section Upload.
Variable slugFilename : list N → list N.
Variable extname : list N → list N.
Variable mime_extension : list N → option (list N).
Variable md5 : list N → list N.

Local Abbreviation handle := (handle slugFilename extname mime_extension md5).
Local Abbreviation step := (step slugFilename extname mime_extension md5).
Local Abbreviation run := (run slugFilename extname mime_extension md5).

Lemma is_fulfilled_spec (u : File * promise ()) :
  is_fulfilled u = true ↔ u.2 = Fulfilled ().
Proof. destruct u as [f [| []|e]]; simpl; split; done. Qed.

Lemma forallb_fulfilled (st : upload_state) :
  forallb is_fulfilled (uploads st) = true ↔ all_fulfilled st.
Proof.
  unfold all_fulfilled. induction (uploads st) as [|u l IH]; simpl.
  - split; [constructor|done].
  - rewrite andb_true_iff, IH, Forall_cons, is_fulfilled_spec. done.
Qed.

Lemma first_rejected_Some (us : list (File * promise ())) e :
  first_rejected us = Some e → ∃ u, u ∈ us ∧ u.2 = Rejected e.
Proof.
  unfold first_rejected. intros H.
  destruct (omap _ us) as [|e' l] eqn:E; [done|]. simpl in H. simplify_eq.
  assert (e ∈ omap (λ u : File * promise (),
            match u.2 with Rejected e => Some e | _ => None end) us) as Hin
    by (rewrite E; left).
  apply list_elem_of_omap in Hin as (u & Hu & Hr). exists u. split; [done|].
  destruct (u.2); congruence.
Qed.

Lemma first_rejected_None (us : list (File * promise ())) u e :
  first_rejected us = None → u ∈ us → u.2 ≠ Rejected e.
Proof.
  unfold first_rejected. intros H Hu Hr.
  assert (e ∈ omap (λ u : File * promise (),
            match u.2 with Rejected e => Some e | _ => None end) us) as Hin.
  { apply list_elem_of_omap. exists u. by rewrite Hr. }
  destruct (omap _ us); [by apply elem_of_nil in Hin | done].
Qed.

Lemma settle_write_fixed failure (u : File * promise ()) :
  u.2 ≠ Pending → settle_write failure u = u.
Proof. unfold settle_write. by destruct (u.2). Qed.

Lemma alter_keeps {A} (f : A → A) k (l : list A) x :
  x ∈ l → f x = x → x ∈ alter f k l.
Proof.
  intros Hin Hf. apply list_elem_of_lookup in Hin as [i Hi].
  apply list_elem_of_lookup. exists i.
  destruct (decide (k = i)) as [->|Hne].
  - rewrite list_lookup_alter_eq, Hi. simpl. by rewrite Hf.
  - by rewrite list_lookup_alter_ne.
Qed.

Lemma settle_deferred_fields r (st : upload_state) :
  files (settle_deferred r st) = files st
  ∧ uploads (settle_deferred r st) = uploads st
  ∧ warnings (settle_deferred r st) = warnings st
  ∧ ended (settle_deferred r st) = ended st
  ∧ joined (settle_deferred r st) = joined st
  ∧ reading (settle_deferred r st) = reading st
  ∧ deferred (settle_deferred r st)
    = match deferred st with Pending => r | d => d end.
Proof.
  unfold settle_deferred.
  destruct (deferred st) eqn:E; simpl; rewrite ?E; by split_and!.
Qed.

Lemma handle_handled opts ev st : settled st → handled (handle opts ev st).
Proof.
  intros [Hh Hs]. destruct ev as [p|k failure|err ff|text]; cbn [Filemanager.handle].
  - destruct (ended st) eqn:Ee; [exact Hh|].
    unfold handled in *.
    destruct (joined st) eqn:Ej; [| destruct Hh; congruence..].
    rewrite Ee in Hh. destruct (onFile _ _ _ _ _ _); simpl; exact Hh.
  - unfold handled in *. simpl.
    destruct (joined st) eqn:Ej; [done|done|].
    destruct Hh as [He [(Hr & e & Hd & u & Hu & Hrej)|Hall]]; (split; [done|]).
    + left. split; [done|]. exists e. split; [done|]. exists u. split; [|done].
      simpl. apply alter_keeps; [done|]. apply settle_write_fixed. by rewrite Hrej.
    + right. unfold all_fulfilled in *. simpl. apply Forall_alter; [done|].
      intros u _ Hu. rewrite settle_write_fixed; [done|]. by rewrite Hu.
  - destruct (ended st) eqn:Ee; [exact Hh|].
    unfold handled in *.
    destruct (joined st) eqn:Ej; [| destruct Hh; congruence..].
    destruct Hh as (Hr & Hnf & Hp). specialize (Hp Ee).
    destruct err as [code|].
    + unfold settle_deferred. simpl. rewrite Hp. simpl. by split_and!.
    + simpl. by split_and!.
  - destruct (reading st) as [fs|] eqn:Er; [|exact Hh].
    unfold handled in *.
    destruct (joined st) eqn:Ej.
    + destruct Hh as [? _]. congruence.
    + destruct Hh as (_ & ? & _). congruence.
    + destruct Hh as [He [(? & _)|Hall]]; [congruence|].
      unfold settle_deferred. simpl.
      destruct (deferred st); simpl; (split; [done|by right]).
Qed.

Lemma react_settled opts st : handled st → settled (react opts st).
Proof.
  intros Hh. unfold react. unfold settled, handled in *.
  destruct (joined st) as [|fs|] eqn:Ej; [by rewrite Ej | | by rewrite Ej].
  destruct Hh as (He & Hr & Hd).
  destruct (first_rejected (uploads st)) as [e|] eqn:Ef.
  - unfold settle_deferred, set_joined. simpl. rewrite Hd. simpl.
    split; [|done]. split; [done|]. left. split; [done|]. exists e. split; [done|].
    by apply first_rejected_Some in Ef.
  - destruct (forallb is_fulfilled (uploads st)) eqn:Ea.
    + apply forallb_fulfilled in Ea.
      destruct (format opts).
      * unfold handleEditorUpload.
        destruct (files_named _ _) as [|f [|? ?]];
          unfold settle_deferred, set_joined; simpl; rewrite Hd; simpl;
          (split; [|done]); (split; [done|]); by right.
      * unfold handleTemplatesUploads.
        change (files_named (js "markup") (set_joined Done st))
          with (files_named (js "markup") st).
        destruct (images_forEach _ _) as [fs'|].
        2:{ unfold settle_deferred, set_joined; simpl; rewrite Hd; simpl.
            (split; [|done]); (split; [done|]); by right. }
        destruct (files_named _ _) as [|m [|? ?]].
        -- unfold settle_deferred, set_joined; simpl; rewrite Hd; simpl.
           (split; [|done]); (split; [done|]); by right.
        -- destruct (bool_decide (name m ≠ [])).
           ++ simpl. (split; [|done]); (split; [done|]); by right.
           ++ unfold settle_deferred, set_joined; simpl; rewrite Hd; simpl.
              (split; [|done]); (split; [done|]); by right.
        -- unfold settle_deferred, set_joined; simpl; rewrite Hd; simpl.
           (split; [|done]); (split; [done|]); by right.
    + rewrite Ej. done.
Qed.

Lemma step_settled opts ev st : settled st → settled (step opts st ev).
Proof. intros H. by apply react_settled, handle_handled. Qed.

Lemma foldl_step_settled opts events : ∀ st,
  settled st → settled (foldl (step opts) st events).
Proof.
  induction events as [|ev l IH]; intros st H; [done|].
  simpl. by apply IH, step_settled.
Qed.

Lemma run_settled opts events : settled (run opts events).
Proof. apply foldl_step_settled. unfold settled, handled. simpl. done. Qed.

(** *** Fields the reactions and the handlers leave alone *)

Lemma settle_deferred_settled r st :
  deferred st ≠ Pending → settle_deferred r st = st.
Proof. unfold settle_deferred. by destruct (deferred st). Qed.

Lemma react_fields opts st :
  uploads (react opts st) = uploads st ∧ ended (react opts st) = ended st
  ∧ (joined st ≠ NotStarted → joined (react opts st) ≠ NotStarted)
  ∧ (joined st = NotStarted → react opts st = st)
  ∧ (deferred st ≠ Pending → deferred (react opts st) = deferred st).
Proof.
  unfold react. destruct (joined st) as [|fs|] eqn:Ej; [by rewrite Ej..| |by rewrite Ej].
  assert (∀ r s, uploads (settle_deferred r s) = uploads s
                 ∧ ended (settle_deferred r s) = ended s
                 ∧ joined (settle_deferred r s) = joined s
                 ∧ (deferred s ≠ Pending → deferred (settle_deferred r s) = deferred s))
    as Hsd.
  { intros r s. unfold settle_deferred.
    destruct (deferred s) eqn:E; simpl; rewrite ?E; split_and!; congruence. }
  destruct (first_rejected (uploads st)).
  { destruct (Hsd (Rejected u) (set_joined Done st)) as (-> & -> & -> & Hd).
    by split_and!. }
  destruct (forallb is_fulfilled (uploads st)); [|by rewrite Ej].
  destruct (format opts).
  - unfold handleEditorUpload. destruct (files_named _ _) as [|f [|? ?]];
      match goal with |- context [settle_deferred ?r ?s] =>
        destruct (Hsd r s) as (-> & -> & -> & Hd) end; by split_and!.
  - unfold handleTemplatesUploads. destruct (images_forEach _ _) as [fs'|].
    2:{ match goal with |- context [settle_deferred ?r ?s] =>
          destruct (Hsd r s) as (-> & -> & -> & Hd) end. by split_and!. }
    destruct (files_named _ _) as [|m [|? ?]]; [| destruct (bool_decide (name m ≠ [])) |];
      try (match goal with |- context [settle_deferred ?r ?s] =>
        destruct (Hsd r s) as (-> & -> & -> & Hd) end); by split_and!.
Qed.

Lemma step_deferred_settled opts ev st :
  deferred st ≠ Pending → deferred (step opts st ev) = deferred st.
Proof.
  intros Hd. unfold Filemanager.step.
  assert (deferred (handle opts ev st) = deferred st) as Hh.
  { destruct ev as [p|k failure|err ff|text]; cbn [Filemanager.handle].
    - destruct (ended st); [done|]. by destruct (onFile _ _ _ _ _ _).
    - done.
    - destruct (ended st); [done|]. destruct err; [|done].
      unfold settle_deferred. simpl. by destruct (deferred st).
    - destruct (reading st); [|done].
      unfold settle_deferred. simpl. by destruct (deferred st). }
  destruct (react_fields opts (handle opts ev st)) as (_ & _ & _ & _ & Hr).
  rewrite Hr; [done|]. by rewrite Hh.
Qed.

Lemma foldl_deferred_settled opts events : ∀ st,
  deferred st ≠ Pending → deferred (foldl (step opts) st events) = deferred st.
Proof.
  induction events as [|ev l IH]; intros st Hd; [done|]. simpl.
  rewrite IH; [by apply step_deferred_settled|].
  by rewrite step_deferred_settled.
Qed.

Lemma step_before_end opts ev st :
  not_parse_end ev → ended st = false → joined st = NotStarted →
  ended (step opts st ev) = false ∧ joined (step opts st ev) = NotStarted.
Proof.
  intros Hev He Hj. unfold Filemanager.step.
  assert (ended (handle opts ev st) = false ∧ joined (handle opts ev st) = NotStarted)
    as [He' Hj'].
  { destruct ev as [p|k failure|err ff|text]; cbn [Filemanager.handle].
    - rewrite He. by destruct (onFile _ _ _ _ _ _).
    - done.
    - by destruct (Hev err ff).
    - destruct (reading st); [|done]. unfold settle_deferred. simpl.
      by destruct (deferred st). }
  destruct (react_fields opts (handle opts ev st)) as (_ & _ & _ & Hid & _).
  by rewrite Hid.
Qed.

Lemma foldl_before_end opts events : ∀ st,
  Forall not_parse_end events → ended st = false → joined st = NotStarted →
  ended (foldl (step opts) st events) = false
  ∧ joined (foldl (step opts) st events) = NotStarted.
Proof.
  induction events as [|ev l IH]; intros st Hev He Hj; [done|]. simpl.
  apply Forall_cons in Hev as [Hev Hl].
  destruct (step_before_end opts ev st Hev He Hj). by apply IH.
Qed.

Lemma step_started opts ev st :
  joined st ≠ NotStarted → joined (step opts st ev) ≠ NotStarted.
Proof.
  intros Hj. unfold Filemanager.step.
  destruct (react_fields opts (handle opts ev st)) as (_ & _ & Hr & _).
  apply Hr. destruct ev as [p|k failure|err ff|text]; cbn [Filemanager.handle].
  - destruct (ended st); [done|]. by destruct (onFile _ _ _ _ _ _).
  - done.
  - destruct (ended st); [done|]. destruct err; [|done].
    unfold settle_deferred. simpl. by destruct (deferred st).
  - destruct (reading st); [|done]. unfold settle_deferred. simpl.
    by destruct (deferred st).
Qed.

Lemma foldl_started opts events : ∀ st,
  joined st ≠ NotStarted → joined (foldl (step opts) st events) ≠ NotStarted.
Proof.
  induction events as [|ev l IH]; intros st Hj; [done|]. simpl.
  by apply IH, step_started.
Qed.

Lemma run_app opts a b : run opts (a ++ b) = foldl (step opts) (run opts a) b.
Proof. unfold Filemanager.run. apply foldl_app. Qed.

(** Once [onEnd] has run without a parse error the join is started. *)
Lemma run_parsed_started opts pre ff post :
  Forall not_parse_end pre →
  joined (run opts (pre ++ ParseEnd None ff :: post)) ≠ NotStarted.
Proof.
  intros Hpre. rewrite run_app. simpl. apply foldl_started.
  destruct (foldl_before_end opts pre parseMultipart Hpre eq_refl eq_refl) as [He Hj].
  fold (run opts pre) in He, Hj. unfold Filemanager.step.
  destruct (react_fields opts (handle opts (ParseEnd None ff) (run opts pre)))
    as (_ & _ & Hr & _).
  apply Hr. cbn [Filemanager.handle]. by rewrite He.
Qed.

Lemma step_not_rejected opts ev st :
  not_failure ev → Forall not_rejected (uploads st) →
  Forall not_rejected (uploads (step opts st ev)).
Proof.
  intros Hev Hu. unfold Filemanager.step.
  destruct (react_fields opts (handle opts ev st)) as (-> & _).
  destruct ev as [p|k failure|err ff|text]; cbn [Filemanager.handle].
  - destruct (ended st); [done|]. destruct (onFile _ _ _ _ _ _); simpl; [done..|].
    apply Forall_app. split; [done|]. by repeat constructor.
  - simpl. apply Forall_alter; [done|]. intros u _ Hn e.
    unfold settle_write. destruct (u.2) eqn:E; [|apply Hn..].
    destruct failure as [code|]; [by destruct (Hev k code)|done].
  - destruct (ended st); [done|]. destruct err; [|done].
    unfold settle_deferred. simpl. by destruct (deferred st).
  - destruct (reading st); [|done]. unfold settle_deferred. simpl.
    by destruct (deferred st).
Qed.

Lemma foldl_not_rejected opts events : ∀ st,
  Forall not_failure events → Forall not_rejected (uploads st) →
  Forall not_rejected (uploads (foldl (step opts) st events)).
Proof.
  induction events as [|ev l IH]; intros st Hev Hu; [done|]. simpl.
  apply Forall_cons in Hev as [Hev Hl]. by apply IH, step_not_rejected.
Qed.

Lemma first_rejected_cons u us :
  first_rejected (u :: us)
  = match u.2 with Rejected e => Some e | _ => first_rejected us end.
Proof. unfold first_rejected. simpl. by destruct (u.2). Qed.

Lemma first_rejected_clean us : Forall not_rejected us → first_rejected us = None.
Proof.
  induction 1 as [|u us Hu _ IH]; [done|].
  rewrite first_rejected_cons, IH. destruct (u.2) eqn:E; [done..|].
  by destruct (Hu e).
Qed.

Lemma first_rejected_alter code us : ∀ k f,
  Forall not_rejected us → us !! k = Some (f, Pending) →
  first_rejected (alter (settle_write (Some code)) k us) = Some (WriteFailed code).
Proof.
  induction us as [|u us IH]; intros k f Hu Hk; [done|].
  apply Forall_cons in Hu as [Hu Hus]. destruct k as [|k]; simpl in Hk.
  - simplify_eq. done.
  - change (alter ?g (S k) (u :: us)) with (u :: alter g k us).
    rewrite first_rejected_cons, (IH k f) by done.
    destruct (u.2) eqn:E; [done..|]. by destruct (Hu e).
Qed.

(** The first write to fail, while the join waits, rejects the promise
    with its error. *)
Lemma step_first_failure opts st k code f :
  settled st → joined st ≠ NotStarted →
  Forall not_rejected (uploads st) → uploads st !! k = Some (f, Pending) →
  deferred (step opts st (WriteSettled k (Some code))) = Rejected (WriteFailed code).
Proof.
  intros [Hh Hs] Hj Hclean Hk. unfold handled in Hh.
  destruct (joined st) as [|fs|] eqn:Ej; [done| |].
  - destruct Hh as (He & Hr & Hd).
    unfold Filemanager.step, react. cbn [Filemanager.handle]. simpl. rewrite Ej.
    rewrite (first_rejected_alter code _ k f) by done.
    unfold settle_deferred. simpl. by rewrite Hd.
  - exfalso. destruct Hh as [_ [(_ & e & _ & u & Hu & Hrej)|Hall]].
    + rewrite Forall_forall in Hclean. by apply (Hclean u Hu e).
    + unfold all_fulfilled in Hall. rewrite Forall_lookup in Hall.
      by apply Hall in Hk.
Qed.


Lemma ended_false_not_started st : handled st → ended st = false → joined st = NotStarted.
Proof.
  unfold handled. destruct (joined st); [done|..]; intros H; destruct H; congruence.
Qed.

Lemma before_end opts pre :
  Forall not_parse_end pre →
  ended (run opts pre) = false ∧ joined (run opts pre) = NotStarted
  ∧ reading (run opts pre) = None ∧ deferred (run opts pre) = Pending.
Proof.
  intros Hpre.
  destruct (foldl_before_end opts pre parseMultipart Hpre eq_refl eq_refl) as [He Hj].
  fold (run opts pre) in He, Hj.
  destruct (run_settled opts pre) as [Hh _].
  unfold handled in Hh. rewrite Hj in Hh. destruct Hh as (Hr & _ & Hd).
  by split_and!; [| | |apply Hd].
Qed.

(** The first rejected write in the order of the array. *)
Lemma first_rejected_at us : ∀ i f e,
  us !! i = Some (f, Rejected e) →
  (∀ j u, j < i → us !! j = Some u → not_rejected u) →
  first_rejected us = Some e.
Proof.
  induction us as [|u us IH]; intros i f e Hi Hbefore; [done|].
  rewrite first_rejected_cons. destruct i as [|i]; simpl in Hi.
  - by simplify_eq.
  - destruct (u.2) as [| |e'] eqn:E.
    + apply (IH i f e Hi). intros j v Hj. apply (Hbefore (S j) v). lia.
    + apply (IH i f e Hi). intros j v Hj. apply (Hbefore (S j) v). lia.
    + exfalso. by apply (Hbefore 0 u ltac:(lia) eq_refl e').
Qed.

(** Writes that had failed when the parse ended: the join rejects with
    the first of them in the array. *)
Lemma failed_before_end opts pre ff post e :
  Forall not_parse_end pre →
  first_rejected (uploads (run opts pre)) = Some e →
  deferred (run opts (pre ++ ParseEnd None ff :: post)) = Rejected e.
Proof.
  intros Hpre Hfr. rewrite run_app. simpl.
  destruct (before_end opts pre Hpre) as (He & Hj & Hr & Hd).
  assert (deferred (step opts (run opts pre) (ParseEnd None ff)) = Rejected e) as Hs.
  { unfold Filemanager.step. cbn [Filemanager.handle]. rewrite He.
    unfold react, set_joined. simpl. rewrite Hfr.
    unfold settle_deferred. simpl. by rewrite Hd. }
  rewrite foldl_deferred_settled; [done|]. by rewrite Hs.
Qed.

(** C3. Once the form is parsed without error: the promise is fulfilled
    with a result only when every write is fulfilled; if a write has failed
    the promise is rejected with the error of a failed write and no result
    is given.  The error is pinned: when writes had failed by the end of the
    parse, it is that of the first of them in the order of the parts; when
    none had, it is that of the first write to fail afterwards, whatever the
    other writes do later. *)
Theorem upload_all_or_nothing opts pre ff post :
  Forall not_parse_end pre →
  let s0 := run opts pre in
  let st := run opts (pre ++ ParseEnd None ff :: post) in
  (∀ r, deferred st = Fulfilled r → all_fulfilled st)
  ∧ (∀ e, some_rejected st e →
       (∀ r, deferred st ≠ Fulfilled r)
       ∧ ∃ e', deferred st = Rejected e' ∧ some_rejected st e')
  ∧ (∀ i f e,
       uploads s0 !! i = Some (f, Rejected e) →
       (∀ j u, j < i → uploads s0 !! j = Some u → not_rejected u) →
       deferred st = Rejected e)
  ∧ (∀ post1 k code post2 f,
       post = post1 ++ WriteSettled k (Some code) :: post2 →
       Forall not_rejected (uploads (run opts (pre ++ ParseEnd None ff :: post1))) →
       uploads (run opts (pre ++ ParseEnd None ff :: post1)) !! k = Some (f, Pending) →
       deferred st = Rejected (WriteFailed code)).
Proof.
  intros Hpre s0 st.
  pose proof (run_settled opts (pre ++ ParseEnd None ff :: post)) as [Hh Hs].
  pose proof (run_parsed_started opts pre ff post Hpre) as Hj.
  fold st in Hh, Hs, Hj. unfold handled in Hh.
  assert (∀ e, some_rejected st e →
            ∃ e', deferred st = Rejected e' ∧ some_rejected st e') as Hrej.
  { intros e (u & Hu & Hr). destruct (joined st) eqn:Ej; [done| |].
    - by destruct (first_rejected_None _ u e Hs Hu Hr).
    - destruct Hh as [_ [(_ & e' & ? & ?)|Hall]]; [by exists e'|].
      unfold all_fulfilled in Hall. rewrite Forall_forall in Hall.
      apply Hall in Hu. congruence. }
  split_and!.
  - intros r Hr. destruct (joined st).
    + destruct Hh as (_ & Hn & _). by destruct (Hn r).
    + destruct Hh as (_ & _ & ?). congruence.
    + destruct Hh as [_ [(_ & e & ? & _)|Hall]]; [congruence|done].
  - intros e He. split; [|by apply (Hrej e)].
    destruct (Hrej e He) as (e' & Hd & _). intros r. congruence.
  - intros i f e Hi Hbefore. apply failed_before_end; [done|].
    by apply (first_rejected_at _ i f e).
  - intros post1 k code post2 f -> Hclean Hk. unfold st.
    rewrite app_comm_cons, app_assoc, run_app. simpl.
    set (s1 := run opts (pre ++ ParseEnd None ff :: post1)) in *.
    assert (deferred (step opts s1 (WriteSettled k (Some code)))
            = Rejected (WriteFailed code)) as Hd.
    { apply (step_first_failure _ _ _ _ f); [apply run_settled| |done|done].
      by apply run_parsed_started. }
    rewrite foldl_deferred_settled; [done|]. by rewrite Hd.
Qed.

Lemma onFile_Stored opts fld file f' :
  onFile slugFilename extname mime_extension opts fld file = Stored f' →
  name f' = prefix opts ++ js "-" ++ hash file ++ js "."
              ++ ext_text (mime_extension (type file)).
Proof.
  unfold onFile. destruct (size file =? 0)%N; [done|].
  case_bool_decide; [done|].
  destruct (remove_first _ _); [done|]. by intros [= <-].
Qed.

(** A stored file whose MIME type has an extension in the table is named
    [<prefix>-<hash>.<ext>]. *)
Lemma stored_name_of_known_type opts fld file f' ext :
  onFile slugFilename extname mime_extension opts fld file = Stored f' →
  mime_extension (type file) = Some ext →
  name f' = prefix opts ++ js "-" ++ hash file ++ js "." ++ ext.
Proof. intros H%onFile_Stored E. by rewrite H, E. Qed.

(** C9. Two parts with the same bytes and the same MIME type, uploaded
    under the same prefix, are stored under the same name. *)
Theorem stored_name_deterministic opts p1 p2 f1 f2 :
  content p1 = content p2 → mime p1 = mime p2 →
  onFile slugFilename extname mime_extension opts (field p1) (incoming md5 p1) = Stored f1 →
  onFile slugFilename extname mime_extension opts (field p2) (incoming md5 p2) = Stored f2 →
  name f1 = name f2
  ∧ name f1 = prefix opts ++ js "-" ++ md5 (content p1) ++ js "."
                ++ ext_text (mime_extension (mime p1)).
Proof.
  intros Hc Hm H1%onFile_Stored H2%onFile_Stored. simpl in *.
  rewrite H1, H2, Hc, Hm. done.
Qed.

Lemma run_snoc opts events ev :
  run opts (events ++ [ev]) = step opts (run opts events) ev.
Proof. by rewrite run_app. Qed.

Lemma onFile_empty opts p :
  slugFilename [] = [] → content p = [] ∨ filename p = [] →
  ∀ f, onFile slugFilename extname mime_extension opts (field p) (incoming md5 p) ≠ Stored f.
Proof.
  intros Hslug Hp f. unfold onFile. simpl. destruct Hp as [->| ->]; [done|].
  destruct (_ =? 0)%N; [done|]. case_bool_decide; [done|].
  rewrite Hslug. by destruct (extname []).
Qed.

Lemma react_skipped opts st p warned :
  joined st = NotStarted → react opts (skipped md5 st p warned) = skipped md5 st p warned.
Proof.
  intros Hj. by destruct (react_fields opts (skipped md5 st p warned)) as (_ & _ & _ & -> & _).
Qed.

Lemma handle_not_stored opts st p :
  ended st = false →
  handle opts (FileEvent p) st
  = match onFile slugFilename extname mime_extension opts (field p) (incoming md5 p) with
    | Ignored => skipped md5 st p []
    | Warned n => skipped md5 st p [n]
    | Stored f => handle opts (FileEvent p) st
    end.
Proof.
  intros He. unfold skipped. cbn [Filemanager.handle]. rewrite He.
  destruct (onFile _ _ _ _ _ _); [|done..]. by rewrite app_nil_r.
Qed.

Lemma step_not_stored opts st p :
  settled st → ended st = false →
  (∀ f, onFile slugFilename extname mime_extension opts (field p) (incoming md5 p) ≠ Stored f) →
  ∃ warned, step opts st (FileEvent p) = skipped md5 st p warned.
Proof.
  intros [Hh _] He Hn. apply ended_false_not_started in Hh as Hj; [|done].
  unfold Filemanager.step. rewrite handle_not_stored by done.
  destruct (onFile _ _ _ _ _ _) as [|n|f] eqn:E; [| |by destruct (Hn f)].
  - exists []. by apply react_skipped.
  - exists [n]. by apply react_skipped.
Qed.

(** A part of no bytes and a part without a name are not written and
    [imageToFields] leaves the fields as they are on their files; a part whose
    name slugs to nothing is not written either and its name goes to the
    warnings. *)
Lemma skipped_parts opts events p :
  slugFilename [] = [] →
  ended (run opts events) = false →
  let st := run opts events in
  let st' := run opts (events ++ [FileEvent p]) in
  (content p = [] ∨ filename p = [] →
     uploads st' = uploads st ∧ deferred st' = deferred st
     ∧ files st' = files st ++ [(field p, incoming md5 p)]
     ∧ ∀ fs, imageToFields fs (incoming md5 p) = Some fs)
  ∧ (content p ≠ [] → field p ≠ js "markup" →
     remove_first (extname (slugFilename (filename p))) (slugFilename (filename p)) = [] →
     st' = skipped md5 st p [filename p]).
Proof.
  intros Hslug He st st'. unfold st'. rewrite run_snoc. fold st. split.
  - intros Hp.
    destruct (step_not_stored opts st p (run_settled opts events) He
                (onFile_empty opts p Hslug Hp)) as (w & ->).
    split_and!; [done..|]. intros fs. unfold imageToFields. simpl.
    destruct Hp as [->| ->]; [done|]. destruct (_ =? 0)%N; [done|].
    by rewrite bool_decide_eq_true_2.
  - intros Hc Hf Hempty.
    pose proof (run_settled opts events) as [Hh _]. fold st in Hh.
    apply ended_false_not_started in Hh as Hj; [|done].
    unfold Filemanager.step. rewrite handle_not_stored by done.
    assert (onFile slugFilename extname mime_extension opts (field p) (incoming md5 p)
            = Warned (filename p)) as ->.
    { unfold onFile. simpl. rewrite Hempty.
      destruct (N.eqb_spec (N.of_nat (length (content p))) 0) as [E|_].
      - destruct (content p); [done|]. simpl in E. lia.
      - by rewrite bool_decide_eq_false_2. }
    by apply react_skipped.
Qed.
End Upload.

Local Abbreviation sample_run :=
  (Filemanager.run Sample.slugFilename Sample.extname Sample.mime_extension Sample.digest).
Local Abbreviation sample_onFile :=
  (onFile Sample.slugFilename Sample.extname Sample.mime_extension).

Lemma upload_all_or_nothing_witness :
  let pre := [FileEvent Sample.logo; FileEvent Sample.logo_copy] in
  let post := [WriteSettled 0 None; WriteSettled 1 (Some 5%N)] in
  let s0 := sample_run Sample.template pre in
  let st := sample_run Sample.template (pre ++ ParseEnd None ∅ :: post) in
  Forall not_parse_end pre
  ∧ (∀ r, deferred st = Fulfilled r → all_fulfilled st)
  ∧ (∀ e, some_rejected st e →
       (∀ r, deferred st ≠ Fulfilled r)
       ∧ ∃ e', deferred st = Rejected e' ∧ some_rejected st e')
  ∧ (∀ i f e,
       uploads s0 !! i = Some (f, Rejected e) →
       (∀ j u, j < i → uploads s0 !! j = Some u → not_rejected u) →
       deferred st = Rejected e)
  ∧ (∀ post1 k code post2 f,
       post = post1 ++ WriteSettled k (Some code) :: post2 →
       Forall not_rejected
         (uploads (sample_run Sample.template (pre ++ ParseEnd None ∅ :: post1))) →
       uploads (sample_run Sample.template (pre ++ ParseEnd None ∅ :: post1)) !! k
       = Some (f, Pending) →
       deferred st = Rejected (WriteFailed code)).
Proof.
  intros pre post s0 st.
  assert (Forall not_parse_end pre) as H.
  { constructor; [by intros ? ?|]. constructor; [by intros ? ?|]. constructor. }
  split; [exact H|].
  exact (upload_all_or_nothing Sample.slugFilename Sample.extname Sample.mime_extension
           Sample.digest Sample.template pre ∅ post H).
Defined.

(** Against C3 as stated, where [the first error] is the first in time.
    Two writes fail while the form is still being parsed, the second part's
    first (error 5), then the first part's (error 9): the promise carries the
    error 9, that of the first rejected write in the array the join goes
    over, not the error of the write that failed first. *)
Lemma upload_reports_first_failed_in_array :
  let parts := [FileEvent Sample.logo; FileEvent Sample.logo_copy] in
  (snd <$> uploads (sample_run Sample.template (parts ++ [WriteSettled 1 (Some 5%N)])))
  = [Pending; Rejected (WriteFailed 5)]
  ∧ (let st := sample_run Sample.template
                 (parts ++ [WriteSettled 1 (Some 5%N); WriteSettled 0 (Some 9%N);
                            ParseEnd None ∅]) in
     (snd <$> uploads st) = [Rejected (WriteFailed 9); Rejected (WriteFailed 5)]
     ∧ deferred st = Rejected (WriteFailed 9)).
Proof.
  intros parts. split; [vm_compute; reflexivity|].
  split; vm_compute; reflexivity.
Qed.

(** The join is that of [Promise.all]: when the second write fails while
    the first is still in flight, the promise is rejected already. *)
Example upload_rejects_at_first_failure :
  let st := sample_run Sample.template
              [FileEvent Sample.logo; FileEvent Sample.logo_copy; ParseEnd None ∅;
               WriteSettled 1 (Some 5%N)] in
  deferred st = Rejected (WriteFailed 5)
  ∧ (snd <$> uploads st) = [Pending; Rejected (WriteFailed 5)].
Proof. split; vm_compute; reflexivity. Qed.

Example upload_one_write_fails :
  deferred (sample_run Sample.template
              [FileEvent Sample.logo; FileEvent Sample.logo_copy; ParseEnd None ∅;
               WriteSettled 0 None; WriteSettled 1 (Some 5%N)])
  = Rejected (WriteFailed 5).
Proof. vm_compute. reflexivity. Qed.

(** C6, where the code departs from it. The table has no extension for
    the MIME type of the part: no error is raised; [mime.extension] gives
    [false], which goes into the names as a text: the part is stored as
    [tpl-6.false], and the submission succeeds with that name in its asset
    map under [data.false].  A part of a known type, in the same submission,
    is named [tpl-16E.png]. *)
Theorem unknown_mime_type_is_stored :
  Sample.mime_extension (mime Sample.blob) = None
  ∧ (∃ f, sample_onFile Sample.template (field Sample.blob)
            (incoming Sample.digest Sample.blob) = Stored f
          ∧ name f = js "tpl-6.false" ∧ originalName f = Some (js "data.false"))
  ∧ (let st := sample_run Sample.template
                 [FileEvent Sample.blob; FileEvent Sample.logo; ParseEnd None ∅;
                  WriteSettled 0 None; WriteSettled 1 None] in
     (name <$> (fst <$> uploads st)) = [js "tpl-6.false"; js "tpl-16E.png"]
     ∧ ∃ fs m, deferred st = Fulfilled (GroupsResult fs)
               ∧ assets fs = Some m
               ∧ m !! js "data.false" = Some (js "tpl-6.false")
               ∧ m !! js "logo.png" = Some (js "tpl-16E.png")).
Proof.
  split; [vm_compute; reflexivity|]. split.
  - eexists. split_and!; vm_compute; reflexivity.
  - split; [vm_compute; reflexivity|].
    eexists. eexists. split; [vm_compute; reflexivity|].
    split; [reflexivity|]. split; vm_compute; reflexivity.
Qed.

Lemma stored_name_deterministic_witness :
  ∃ f1 f2,
    content Sample.logo = content Sample.logo_copy
    ∧ mime Sample.logo = mime Sample.logo_copy
    ∧ sample_onFile Sample.template (field Sample.logo)
        (incoming Sample.digest Sample.logo) = Stored f1
    ∧ sample_onFile Sample.template (field Sample.logo_copy)
        (incoming Sample.digest Sample.logo_copy) = Stored f2
    ∧ name f1 = name f2
    ∧ name f1 = prefix Sample.template ++ js "-" ++ Sample.digest (content Sample.logo)
                  ++ js "." ++ ext_text (Sample.mime_extension (mime Sample.logo)).
Proof.
  eexists. eexists.
  split; [reflexivity|]. split; [reflexivity|].
  split; [vm_compute; reflexivity|]. split; [vm_compute; reflexivity|].
  eapply (stored_name_deterministic Sample.slugFilename Sample.extname
            Sample.mime_extension Sample.digest Sample.template
            Sample.logo Sample.logo_copy);
    [reflexivity | reflexivity | vm_compute; reflexivity | vm_compute; reflexivity].
Defined.

Example stored_name_of_logo :
  ∃ f, sample_onFile Sample.template (field Sample.logo)
         (incoming Sample.digest Sample.logo) = Stored f
       ∧ name f = js "tpl-16E.png" ∧ originalName f = Some (js "logo.png").
Proof. eexists. split_and!; vm_compute; reflexivity. Qed.

Example skipped_parts_of_a_run :
  let events := [FileEvent Sample.logo] in
  let st := sample_run Sample.template events in
  Sample.slugFilename [] = []
  ∧ ended st = false
  ∧ ∀ p,
      let st' := sample_run Sample.template (events ++ [FileEvent p]) in
      (content p = [] ∨ filename p = [] →
         uploads st' = uploads st ∧ deferred st' = deferred st
         ∧ files st' = files st ++ [(field p, incoming Sample.digest p)]
         ∧ ∀ fs, imageToFields fs (incoming Sample.digest p) = Some fs)
      ∧ (content p ≠ [] → field p ≠ js "markup" →
         remove_first (Sample.extname (Sample.slugFilename (filename p)))
           (Sample.slugFilename (filename p)) = [] →
         st' = skipped Sample.digest st p [filename p]).
Proof.
  intros events st.
  assert (Sample.slugFilename [] = []) as H1 by reflexivity.
  assert (ended st = false) as H2 by (vm_compute; reflexivity).
  split; [exact H1|]. split; [exact H2|]. intros p.
  exact (skipped_parts Sample.slugFilename Sample.extname Sample.mime_extension
           Sample.digest Sample.template events p H1 H2).
Qed.

(** C7, where the code departs from it. Four parts come under the field
    [images]: one of no bytes, one without a name, one whose name [???]
    slugs to nothing, and a picture.  Only the picture is written; the empty
    name and [???] go to the warnings, and the submission succeeds.  The
    first two parts add nothing to the asset map.  The third is not skipped
    there: [onFile] returned before it gave the file its names, so that
    [imageToFields] finds a file with bytes and a name and enters it, under
    the key [undefined] and with the name [???] of a file that was never
    stored. *)
Theorem slug_empty_part_enters_asset_map :
  let st := sample_run Sample.template
              [FileEvent Sample.empty_file; FileEvent Sample.unnamed;
               FileEvent Sample.punctuation; FileEvent Sample.logo;
               ParseEnd None ∅; WriteSettled 0 None] in
  sample_onFile Sample.template (field Sample.punctuation)
    (incoming Sample.digest Sample.punctuation) = Warned (js "???")
  ∧ (fst <$> uploads st)
    = [mkFile 4 (js "/tmp/upload_1") (js "tpl-16E.png") (js "image/png")
         (js "16E") (Some (js "logo.png"))]
  ∧ warnings st = [[]; js "???"]
  ∧ deferred st
    = Fulfilled (GroupsResult
        (Fields ∅
           (Some (<[js "logo.png" := js "tpl-16E.png"]>
                    (<[js "undefined" := js "???"]> ∅)))
           None)).
Proof. intros st. split_and!; vm_compute; reflexivity. Qed.

End UploadFacts.

(** ** The export, further *)

Module ExportFacts.
Import JS Download JSFacts HeFacts ManifestFacts UrlFacts RewriteFacts ZipFacts Handlers
  Progress.

(** *** The search expression *)

(** X1. The regular expression [zip] builds from an escaped URL is the
    literal URL, so that a round of the rewrite is one literal substitution
    of the URL by its path. *)
Theorem search_expression_is_literal (html u : list N) :
  regexp_literal (escapeRegExp u) = Some u
  ∧ rewrite_step html u
    = rel ← relativeUrl u;
      Some (replace_global (literal_match u) (get_substitution rel) html).
Proof.
  split; [apply regexp_literal_escape|].
  unfold rewrite_step. by rewrite regexp_literal_escape.
Qed.

(** *** Image names *)

Lemma drop_while_elem p s c : c ∈ drop_while p s → c ∈ s.
Proof.
  induction s as [|d s IH]; simpl; [done|].
  destruct (p d); [|done]. intros H. right. by apply IH.
Qed.

Lemma trim_elem s c : c ∈ trim s → c ∈ s.
Proof.
  unfold trim. rewrite elem_of_reverse. intros H%drop_while_elem.
  rewrite elem_of_reverse in H. by apply drop_while_elem in H.
Qed.

(** X2. An image name holds neither a slash nor white space: every image
    lies directly in the images folder of the archive. *)
Theorem image_name_is_flat (imageUrl name : list N) :
  getImageName imageUrl = Some name →
  Forall (λ c, c ≠ 47%N ∧ is_space c = false) name.
Proof.
  unfold getImageName. destruct (Url.pathname imageUrl) as [p|]; [|done].
  simpl. intros [= <-]. rewrite replace_space. apply Forall_forall.
  intros c Hc. apply list_elem_of_fmap in Hc as (d & -> & Hd).
  apply trim_elem in Hd.
  change (replace_class (λ c, (c =? 47)%N) (js " ") p)
    with (replace_class is_slash (js " ") p) in Hd.
  rewrite replace_slash in Hd. apply list_elem_of_fmap in Hd as (e & -> & _).
  unfold slash_to_space, is_slash. destruct (e =? 47)%N eqn:E.
  - by vm_compute.
  - apply N.eqb_neq in E. destruct (is_space e) eqn:Es; [by vm_compute|done].
Qed.

Lemma image_name_is_flat_witness :
  getImageName (js "http://a.com/img/2018/x y.png") = Some (js "img-2018-x%20y.png")
  ∧ Forall (λ c, c ≠ 47%N ∧ is_space c = false) (js "img-2018-x%20y.png").
Proof.
  assert (getImageName (js "http://a.com/img/2018/x y.png")
          = Some (js "img-2018-x%20y.png"))
    as H by (vm_compute; reflexivity).
  split; [exact H|]. exact (image_name_is_flat _ _ H).
Defined.

(** *** The name of the archive *)

Lemma strip_extension_cons c s :
  strip_extension (c :: s)
  = if (c =? 46)%N && bool_decide (s ≠ []) && forallb (λ d, is_digit d || is_lower d) s
    then [] else c :: strip_extension s.
Proof. reflexivity. Qed.

Lemma forallb_dot a b : forallb (λ d, is_digit d || is_lower d) (a ++ 46%N :: b) = false.
Proof.
  induction a as [|c a IH]; simpl; [done|]. by rewrite IH, andb_false_r.
Qed.

Lemma strip_extension_ext base ext :
  ext ≠ [] → Forall (λ d, is_digit d || is_lower d = true) ext →
  strip_extension (base ++ 46%N :: ext) = base.
Proof.
  intros Hne Hext. induction base as [|c base IH].
  - assert (forallb (λ d, is_digit d || is_lower d) ext = true) as Hall.
    { clear Hne. induction Hext as [|d l Hd _ IHl]; simpl; [done|]. by rewrite Hd. }
    change ([] ++ 46%N :: ext) with (46%N :: ext).
    rewrite strip_extension_cons, Hall. rewrite (bool_decide_eq_true_2 _ Hne). done.
  - change ((c :: base) ++ 46%N :: ext) with (c :: base ++ 46%N :: ext).
    rewrite strip_extension_cons, forallb_dot. rewrite andb_false_r. by rewrite IH.
Qed.

Lemma strip_extension_no_dot s : Forall (λ c, c ≠ 46%N) s → strip_extension s = s.
Proof.
  induction 1 as [|c s Hc _ IH]; [done|].
  rewrite strip_extension_cons. apply N.eqb_neq in Hc. rewrite Hc. simpl. by rewrite IH.
Qed.

(** X3. [getName] drops one trailing extension made of digits and
    lower-case letters before it slugs the name, and keeps a name without a
    dot whole. *)
Theorem getName_drops_extension (getSlug : list N → list N) (base ext plain : list N) :
  ext ≠ [] → Forall (λ d, is_digit d || is_lower d = true) ext →
  plain ≠ [] → Forall (λ c, c ≠ 46%N) plain →
  getName getSlug (base ++ 46%N :: ext) = getSlug base
  ∧ getName getSlug plain = getSlug plain.
Proof.
  intros Hne Hext Hp Hplain. unfold getName. split.
  - destruct (base ++ 46%N :: ext) eqn:E; [by destruct base|].
    rewrite <- E. by rewrite strip_extension_ext.
  - destruct plain; [done|]. by rewrite strip_extension_no_dot.
Qed.

Lemma getName_drops_extension_witness :
  getName Sample.getSlug (js "Summer Sale.v2.html") = Sample.getSlug (js "Summer Sale.v2")
  ∧ getName Sample.getSlug (js "Newsletter") = Sample.getSlug (js "Newsletter").
Proof.
  apply (getName_drops_extension Sample.getSlug (js "Summer Sale.v2") (js "html")
           (js "Newsletter")).
  - done.
  - repeat constructor.
  - done.
  - repeat (constructor; [by vm_compute|]). constructor.
Defined.

(** *** The run of the export *)

Lemma handle_requests ev st :
  requests (handle ev st) = requests st ∧ root (handle ev st) = root st
  ∧ length (dfds (handle ev st)) = length (dfds st).
Proof.
  destruct ev as [i code|i e| |code]; unfold handle; try done.
  - destruct (requests st !! i) as [[u n]|]; [|done].
    destruct (negb (code =? 200)%N); [done|]. simpl.
    rewrite length_insert. unfold append. by destruct (finalized st).
  - destruct (requests st !! i); [|done]. simpl. by rewrite length_insert.
Qed.

Lemma continue_fields st :
  requests (continue st) = requests st ∧ root (continue st) = root st
  ∧ dfds (continue st) = dfds st ∧ entries (continue st) = entries st.
Proof. unfold continue. by destruct (_ && _). Qed.

Lemma step_requests ev st :
  requests (step st ev) = requests st ∧ root (step st ev) = root st
  ∧ length (dfds (step st ev)) = length (dfds st).
Proof.
  unfold step. destruct (continue_fields (handle ev st)) as (-> & -> & -> & _).
  apply handle_requests.
Qed.

Lemma run_requests events : ∀ st,
  requests (run events st) = requests st ∧ root (run events st) = root st
  ∧ length (dfds (run events st)) = length (dfds st).
Proof.
  induction events as [|ev l IH]; intros st; [done|]. simpl.
  destruct (IH (step st ev)) as (-> & -> & ->). apply step_requests.
Qed.

Lemma step_keeps_resolved i ev st :
  dfds st !! i = Some true → dfds (step st ev) !! i = Some true.
Proof.
  intros H. unfold step. destruct (continue_fields (handle ev st)) as (_ & _ & -> & _).
  assert (∀ j s, dfds s !! i = Some true → dfds (resolve j s) !! i = Some true) as Hres.
  { intros j s Hs. simpl. destruct (decide (j = i)) as [->|Hne].
    - rewrite list_lookup_insert_eq; [done|]. by eapply lookup_lt_Some.
    - by rewrite list_lookup_insert_ne. }
  destruct ev as [j code|j e| |code]; unfold handle; try done.
  - destruct (requests st !! j) as [[u n]|]; [|done].
    destruct (negb (code =? 200)%N); [done|]. apply Hres.
    unfold append. by destruct (finalized st).
  - destruct (requests st !! j); [|done]. by apply Hres.
Qed.

Lemma step_resolves i ev st :
  resolves i ev → i < length (requests st) → length (dfds st) = length (requests st) →
  dfds (step st ev) !! i = Some true.
Proof.
  intros Hr Hi Hl. unfold step.
  destruct (continue_fields (handle ev st)) as (_ & _ & -> & _).
  destruct (lookup_lt_is_Some_2 (requests st) i Hi) as [[u n] Hreq].
  destruct Hr as [->|[e ->]]; unfold handle; rewrite Hreq; simpl.
  - apply list_lookup_insert_eq. unfold append. destruct (finalized st); simpl; lia.
  - apply list_lookup_insert_eq. lia.
Qed.

Lemma run_keeps_resolved i events : ∀ st,
  dfds st !! i = Some true → dfds (run events st) !! i = Some true.
Proof.
  induction events as [|ev l IH]; intros st H; [done|]. simpl.
  by apply IH, step_keeps_resolved.
Qed.

Lemma run_resolves i events : ∀ st,
  (∃ ev, ev ∈ events ∧ resolves i ev) →
  i < length (requests st) → length (dfds st) = length (requests st) →
  dfds (run events st) !! i = Some true.
Proof.
  induction events as [|ev l IH]; intros st (ev' & Hin & Hr) Hi Hl.
  - by apply elem_of_nil in Hin.
  - simpl. apply elem_of_cons in Hin as [->|Hin].
    + by apply run_keeps_resolved, step_resolves.
    + destruct (step_requests ev st) as (Hq & _ & Hd).
      apply IH; [by exists ev' | by rewrite Hq | by rewrite Hd, Hq].
Qed.

Lemma continue_caught_up st : caught_up (continue st).
Proof.
  unfold caught_up, continue. destruct (finalized st) eqn:Ef; simpl; [done|].
  destruct (forallb id (dfds st)) eqn:Ea; simpl; [done|]. congruence.
Qed.

Lemma run_caught_up events : ∀ st, caught_up st → caught_up (run events st).
Proof.
  induction events as [|ev l IH]; intros st H; [done|]. simpl.
  apply IH. apply continue_caught_up.
Qed.

Section Zip.
Variable getSlug : list N → list N.
Variable regexEncodeNonAscii : list N → option nat.
Variable encodeMap : list N → list N.
Variable load : list N → list element.

Local Abbreviation zip := (zip getSlug regexEncodeNonAscii encodeMap load).
Local Abbreviation secureHtml := (secureHtml regexEncodeNonAscii encodeMap).

Lemma zip_start req st :
  zip req = Started st →
  caught_up st ∧ length (dfds st) = length (requests st)
  ∧ ∃ mailing_name html,
      mailing req = Some mailing_name
      ∧ rewrite_html (body_html req) (allImages (load (body_html req))) = Some html
      ∧ root st = getName getSlug mailing_name
      ∧ attachment st = getName getSlug mailing_name ++ js ".zip"
      ∧ entries st = [Entry (getName getSlug mailing_name ++ js ".html")
                        (getName getSlug mailing_name ++ js "/")
                        (HtmlText (secureHtml html))].
Proof.
  unfold Download.zip. destruct (mailing req) as [nm|]; [|done].
  destruct (rewrite_html _ _) as [html|]; [|done].
  destruct (mapM _ _) as [reqs|]; [|done].
  intros [= <-]. split; [apply continue_caught_up|].
  match goal with |- context [continue ?s] =>
    destruct (continue_fields s) as (Hq & Hr & Hd & He) end.
  rewrite Hq, Hd. split; [simpl; by rewrite length_replicate|].
  exists nm, html. split_and!; [done..| |].
  - unfold continue. by destruct (_ && _).
  - by rewrite He.
Qed.

(** An HTML without remote image: the archive is finalized at once,
    with the HTML, sanitised but otherwise as it came, as its only entry. *)
Lemma zip_without_images req mailing_name :
  mailing req = Some mailing_name →
  allImages (load (body_html req)) = [] →
  zip req
  = Started (ZipState (getName getSlug mailing_name ++ js ".zip")
               (getName getSlug mailing_name) []
               [Entry (getName getSlug mailing_name ++ js ".html")
                  (getName getSlug mailing_name ++ js "/")
                  (HtmlText (secureHtml (body_html req)))]
               [] true false []).
Proof. intros Hm Hi. unfold Download.zip. by rewrite Hm, Hi. Qed.

(** X4. When every request ends in a response of status 200 or in an
    error, every deferred is resolved and the archive is finalized. *)
Theorem zip_finalizes_when_all_resolve req st0 events :
  zip req = Started st0 →
  (∀ i, i < length (requests st0) → ∃ ev, ev ∈ events ∧ resolves i ev) →
  Forall (λ d, d = true) (dfds (run events st0))
  ∧ finalized (run events st0) = true.
Proof.
  intros Hz Hall. apply zip_start in Hz as (Hc & Hl & _).
  assert (Forall (λ d, d = true) (dfds (run events st0))) as Hd.
  { apply Forall_lookup. intros i d Hi.
    destruct (run_requests events st0) as (_ & _ & Hlen).
    assert (i < length (requests st0)) as Hlt.
    { rewrite <- Hl, <- Hlen. by eapply lookup_lt_Some. }
    rewrite (run_resolves i events st0 (Hall i Hlt) Hlt Hl) in Hi. congruence. }
  split; [done|]. apply (run_caught_up events st0 Hc). by apply forallb_id_Forall.
Qed.

Lemma step_entries ev st e :
  e ∈ entries (step st ev) →
  e ∈ entries st
  ∨ ∃ i u n, ev = ImgResponse i 200 ∧ requests st !! i = Some (u, n)
             ∧ e = Entry n (root st ++ js "/" ++ imagesFolder ++ js "/") (ImageStream u).
Proof.
  unfold step. destruct (continue_fields (handle ev st)) as (_ & _ & _ & ->).
  destruct ev as [i code|i e'| |code]; unfold handle; try by left.
  - destruct (requests st !! i) as [[u n]|] eqn:Hreq; [|by left].
    destruct (code =? 200)%N eqn:E; simpl; [|by left].
    apply N.eqb_eq in E. subst code. unfold append.
    destruct (finalized st); simpl; [by left|].
    intros [H|H%list_elem_of_singleton]%elem_of_app; [by left|].
    right. by exists i, u, n.
  - destruct (requests st !! i); by left.
Qed.

Lemma step_entries_grow ev st : entries st `prefix_of` entries (step st ev).
Proof.
  unfold step. destruct (continue_fields (handle ev st)) as (_ & _ & _ & ->).
  destruct ev as [i code|i e'| |code]; unfold handle; try done.
  - destruct (requests st !! i) as [[u n]|]; [|done].
    destruct (negb (code =? 200)%N); [done|]. simpl. unfold append.
    destruct (finalized st); simpl; [done|]. by apply prefix_app_r.
  - by destruct (requests st !! i).
Qed.

Lemma run_entries events : ∀ st e,
  e ∈ entries (run events st) →
  e ∈ entries st
  ∨ ∃ i u n, ImgResponse i 200 ∈ events ∧ requests st !! i = Some (u, n)
             ∧ e = Entry n (root st ++ js "/" ++ imagesFolder ++ js "/") (ImageStream u).
Proof.
  induction events as [|ev l IH]; intros st e He; [by left|]. simpl in He.
  destruct (step_requests ev st) as (Hq & Hr & _).
  apply IH in He as [He|(i & u & n & Hin & Hreq & ->)].
  - apply step_entries in He as [He|(i & u & n & -> & Hreq & ->)]; [by left|].
    right. exists i, u, n. split_and!; [left|done..].
  - right. exists i, u, n. rewrite Hq in Hreq. rewrite Hr.
    split_and!; [by right|done..].
Qed.

Lemma run_entries_grow events : ∀ st, entries st `prefix_of` entries (run events st).
Proof.
  induction events as [|ev l IH]; intros st; [done|]. simpl.
  etrans; [apply step_entries_grow | apply IH].
Qed.

(** X5. Whatever the events, the archive begins with the HTML entry, and
    every other entry is the image of a request that was answered with
    status 200, under the name [getImageName] gives its URL. *)
Theorem zip_archives_only_fetched_images req st0 events :
  zip req = Started st0 →
  entries st0 `prefix_of` entries (run events st0)
  ∧ ∀ e, e ∈ entries (run events st0) →
      e ∈ entries st0
      ∨ ∃ i imageUrl imageName,
          ImgResponse i 200 ∈ events
          ∧ allImages (load (body_html req)) !! i = Some imageUrl
          ∧ getImageName imageUrl = Some imageName
          ∧ e = Entry imageName (root st0 ++ js "/" ++ imagesFolder ++ js "/")
                  (ImageStream imageUrl).
Proof.
  intros Hz. split; [apply run_entries_grow|].
  intros e He. apply run_entries in He as [He|(i & u & n & Hin & Hreq & ->)]; [by left|].
  right. apply zip_started in Hz as (_ & _ & Hreqs).
  destruct (Forall2_lookup_r _ _ _ _ _ Hreqs Hreq) as (u' & Hu' & Hu & Hn).
  simpl in Hu, Hn. subst u'. by exists i, u, n.
Qed.

(** X6. A manifest URL in which the parser finds no path makes [zip] end
    in a [TypeError], with no archive started. *)
Theorem zip_fails_without_pathname req mailing_name imageUrl :
  mailing req = Some mailing_name →
  imageUrl ∈ allImages (load (body_html req)) →
  getImageName imageUrl = None →
  zip req = Next TypeError.
Proof.
  intros Hm Hin Hn. unfold Download.zip. rewrite Hm.
  assert (mapM (λ u, n ← getImageName u; Some (u, n)) (allImages (load (body_html req)))
          = None) as ->.
  { apply mapM_None_2, Exists_exists. exists imageUrl. by rewrite Hn. }
  by destruct (rewrite_html _ _).
Qed.
End Zip.

Lemma zip_finalizes_when_all_resolve_witness :
  let events := [ImgResponse 2 200; ImgError 0 104; ImgResponse 1 200] in
  ∃ st0,
    zip Sample.getSlug Sample.regexEncodeNonAscii Sample.encodeMap
      (λ _, Sample.three_images) Sample.newsletter = Started st0
    ∧ (∀ i, i < length (requests st0) → ∃ ev, ev ∈ events ∧ resolves i ev)
    ∧ Forall (λ d, d = true) (dfds (run events st0))
    ∧ finalized (run events st0) = true.
Proof.
  intros events. eexists.
  split; [vm_compute; reflexivity|].
  match goal with |- (∀ i, i < length (requests ?s) → _) ∧ _ =>
    assert (∀ i, i < length (requests s) → ∃ ev, ev ∈ events ∧ resolves i ev) as Hall end.
  { intros [|[|[|i]]] Hi.
    - exists (ImgError 0 104). split; [repeat constructor | right; by eexists].
    - exists (ImgResponse 1 200). split; [repeat constructor | by left].
    - exists (ImgResponse 2 200). split; [repeat constructor | by left].
    - simpl in Hi. lia. }
  split; [exact Hall|].
  eapply (zip_finalizes_when_all_resolve Sample.getSlug Sample.regexEncodeNonAscii
            Sample.encodeMap (λ _, Sample.three_images) Sample.newsletter _ events);
    [vm_compute; reflexivity | exact Hall].
Defined.

Lemma zip_archives_only_fetched_images_witness :
  let events := [ImgResponse 2 200; ImgResponse 1 404; ImgError 0 104] in
  ∃ st0,
    zip Sample.getSlug Sample.regexEncodeNonAscii Sample.encodeMap
      (λ _, Sample.three_images) Sample.newsletter = Started st0
    ∧ entries st0 `prefix_of` entries (run events st0)
    ∧ ∀ e, e ∈ entries (run events st0) →
        e ∈ entries st0
        ∨ ∃ i imageUrl imageName,
            ImgResponse i 200 ∈ events
            ∧ allImages Sample.three_images !! i = Some imageUrl
            ∧ getImageName imageUrl = Some imageName
            ∧ e = Entry imageName (root st0 ++ js "/" ++ imagesFolder ++ js "/")
                    (ImageStream imageUrl).
Proof.
  intros events. eexists.
  split; [vm_compute; reflexivity|].
  eapply (zip_archives_only_fetched_images Sample.getSlug Sample.regexEncodeNonAscii
            Sample.encodeMap (λ _, Sample.three_images) Sample.newsletter _ events).
  vm_compute. reflexivity.
Defined.

Lemma zip_fails_without_pathname_witness :
  let load := λ _ : list N, [Sample.img "http:"] in
  let req := ZipRequest (Some (js "news")) (js "<img src='http:'>") in
  mailing req = Some (js "news")
  ∧ js "http:" ∈ allImages (load (body_html req))
  ∧ getImageName (js "http:") = None
  ∧ zip Sample.getSlug Sample.regexEncodeNonAscii Sample.encodeMap load req
    = Next TypeError.
Proof.
  intros load req.
  assert (js "http:" ∈ allImages (load (body_html req))) as H1
    by (apply (bool_decide_eq_true_1 _); vm_compute; reflexivity).
  assert (getImageName (js "http:") = None) as H2 by (vm_compute; reflexivity).
  split; [reflexivity|]. split; [exact H1|]. split; [exact H2|].
  exact (zip_fails_without_pathname Sample.getSlug Sample.regexEncodeNonAscii
           Sample.encodeMap load req (js "news") (js "http:") eq_refl H1 H2).
Defined.

(** *** Sanitising *)

(** X7. Provided every named reference of [he] stands for symbols of
    which one is not ASCII: a text of printable ASCII characters and line
    breaks goes through [secureHtml] unchanged; ampersands, angle brackets and
    quotes are not escaped. *)
Theorem secureHtml_keeps_plain_text
    (regexEncodeNonAscii : list N → option nat) (encodeMap : list N → list N)
    (html : list N) :
  (∀ s k, regexEncodeNonAscii s = Some k → ∃ c, c ∈ take k s ∧ (0xA0 ≤ c)%N) →
  Forall (λ c, (32 ≤ c < 127)%N ∨ c = 10%N ∨ c = 13%N) html →
  secureHtml regexEncodeNonAscii encodeMap html = html.
Proof.
  intros Hlib Hplain. apply secureHtml_fixed; [done|].
  eapply Forall_impl; [exact Hplain|]. intros c [H|[->| ->]].
  - by apply stable_printable.
  - by vm_compute.
  - by vm_compute.
Qed.

Lemma secureHtml_keeps_plain_text_witness :
  let html := js "<p class='x'>Tom & Jerry</p>" ++ [10%N] in
  Forall (λ c, (32 ≤ c < 127)%N ∨ c = 10%N ∨ c = 13%N) html
  ∧ secureHtml Sample.regexEncodeNonAscii Sample.encodeMap html = html.
Proof.
  intros html.
  assert (Forall (λ c, (32 ≤ c < 127)%N ∨ c = 10%N ∨ c = 13%N) html) as H.
  { apply Forall_forall. intros c Hc.
    apply (bool_decide_eq_true_1 ((32 ≤ c < 127)%N ∨ c = 10%N ∨ c = 13%N)).
    revert c Hc. apply Forall_forall. repeat constructor. }
  split; [exact H|].
  exact (secureHtml_keeps_plain_text _ _ html sample_match_non_ascii H).
Defined.

(** *** The mailing of a request *)

Lemma findOne_Some cond store row :
  findOne cond store = Some row → row ∈ store ∧ cond row = true.
Proof.
  induction store as [|r l IH]; simpl; [done|].
  destruct (cond r) eqn:E.
  - intros [= <-]. split; [left|done].
  - intros [H1 H2]%IH. split; [by right|done].
Qed.

Lemma findOne_None cond store :
  (∀ row, row ∈ store → cond row = false) → findOne cond store = None.
Proof.
  induction store as [|r l IH]; intros H; simpl; [done|].
  rewrite (H r) by left. apply IH. intros row Hr. apply H. by right.
Qed.

Section Routes.
Variable getSlug : list N → list N.
Variable regexEncodeNonAscii : list N → option nat.
Variable encodeMap : list N → list N.
Variable load : list N → list element.
Variable testSubjectPrefix : list N.

Local Abbreviation send := (send regexEncodeNonAscii encodeMap testSubjectPrefix).
Local Abbreviation zip_for := (zip_for getSlug regexEncodeNonAscii encodeMap load).

(** X8. For a user who is not an administrator, a mailing that no row of
    the user's group carries under the id of the route is answered 404 by
    [zip] and by [send], whatever other groups hold. *)
Theorem other_groups_mailing_is_not_found store u mailingId :
  isAdmin u = false →
  (∀ row, row ∈ store → row_id row = mailingId → row_groupId row ≠ groupId u) →
  (∀ html, zip_for store u mailingId html = Next (HttpError 404))
  ∧ (∀ rcpt html,
       send store (SendRequest true u mailingId rcpt html) = SendNext (HttpError 404)).
Proof.
  intros Hu Hstore.
  assert (findOne (where_clause u mailingId) store = None) as Hnone.
  { apply findOne_None. intros row Hr. unfold where_clause. rewrite Hu. simpl.
    destruct (decide (row_id row = mailingId)) as [Hid|Hid].
    - rewrite (bool_decide_eq_false_2 _ (Hstore row Hr Hid)). apply andb_false_r.
    - by rewrite (bool_decide_eq_false_2 _ Hid). }
  split.
  - intros html. unfold Handlers.zip_for, Download.zip. simpl. by rewrite Hnone.
  - intros rcpt html. unfold Handlers.send. simpl. by rewrite Hnone.
Qed.

(** X9. [send] hands a message to the mailer only for an XHR request and
    a mailing the [where] clause admits; the message goes to the recipient
    of the body with the user as reply address, its subject is the test
    prefix followed by the name of the mailing, and its HTML is the sanitised
    HTML of the body, free of tabs. *)
Theorem send_message store req m :
  send store req = MailSent m →
  xhr req = true
  ∧ (∃ row, row ∈ store ∧ row_id row = send_mailingId req
            ∧ (isAdmin (send_user req) = false →
               row_groupId row = groupId (send_user req))
            ∧ mail_subject m = testSubjectPrefix ++ row_name row)
  ∧ mail_to m = body_rcpt req ∧ mail_replyTo m = email (send_user req)
  ∧ mail_html m = secureHtml regexEncodeNonAscii encodeMap (send_html req)
  ∧ 9%N ∉ mail_html m.
Proof.
  unfold Handlers.send. destruct (xhr req); simpl; [|done].
  destruct (findOne _ store) as [row|] eqn:E; [|done]. intros [= <-].
  apply findOne_Some in E as [Hin Hc]. unfold where_clause in Hc.
  apply andb_true_iff in Hc as [Hid Hg]. apply bool_decide_eq_true in Hid.
  split_and!; [done| |done..|apply secureHtml_no_tab].
  exists row. split_and!; [done..| |done].
  intros Hadm. rewrite Hadm in Hg. simpl in Hg. by apply bool_decide_eq_true in Hg.
Qed.
End Routes.

Lemma other_groups_mailing_is_not_found_witness :
  isAdmin Fixtures.ann = false
  ∧ (∀ html,
       zip_for Sample.getSlug Sample.regexEncodeNonAscii Sample.encodeMap
         (λ _, Sample.three_images) Fixtures.store Fixtures.ann (js "m2") html
       = Next (HttpError 404))
  ∧ (∀ rcpt html,
       send Sample.regexEncodeNonAscii Sample.encodeMap Fixtures.testSubjectPrefix
         Fixtures.store (SendRequest true Fixtures.ann (js "m2") rcpt html)
       = SendNext (HttpError 404)).
Proof.
  split; [reflexivity|].
  apply (other_groups_mailing_is_not_found Sample.getSlug Sample.regexEncodeNonAscii
           Sample.encodeMap (λ _, Sample.three_images) Fixtures.testSubjectPrefix
           Fixtures.store Fixtures.ann (js "m2")); [reflexivity|].
  intros row Hr Hid Hg.
  repeat (apply elem_of_cons in Hr as [->|Hr]); [| |by apply elem_of_nil in Hr];
    vm_compute in Hid, Hg; congruence.
Defined.

Lemma send_message_witness :
  ∃ m,
    send Sample.regexEncodeNonAscii Sample.encodeMap Fixtures.testSubjectPrefix
      Fixtures.store Fixtures.test_mail = MailSent m
    ∧ mail_subject m = js "[TEST] Spring sale.html"
    ∧ mail_html m = js "<p> Hello</p>"
    ∧ 9%N ∉ mail_html m.
Proof.
  eexists. split; [vm_compute; reflexivity|].
  split; [vm_compute; reflexivity|]. split; [vm_compute; reflexivity|].
  eapply (send_message Sample.regexEncodeNonAscii Sample.encodeMap
            Fixtures.testSubjectPrefix Fixtures.store Fixtures.test_mail _).
  vm_compute. reflexivity.
Defined.

(** *** The reference of a style *)

(** X10. In a style whose first [url(] is written without quote or with
    single quotes, the reference taken is the text between the parenthesis,
    or the quotes. *)
Theorem style_url_of_reference (pre u post : list N) :
  first_at_end (js "url(") pre →
  Forall (λ c, c ≠ 41%N ∧ c ≠ 39%N) u →
  style_url (pre ++ js "url(" ++ u ++ 41%N :: post) = Some u
  ∧ style_url (pre ++ js "url(" ++ 39%N :: u ++ 39%N :: post) = Some u.
Proof.
  intros Hpre Hu. split.
  - apply style_url_bare; [done|done|by right; left|].
    destruct u as [|c u]; [done|]. apply Forall_cons in Hu as [[_ Hc] _].
    simpl. congruence.
  - by apply style_url_single_quoted.
Qed.

Lemma style_url_of_reference_witness :
  style_url (js "color:red;background:url(http://a.com/bg.png) no-repeat")
  = Some (js "http://a.com/bg.png")
  ∧ style_url (js "color:red;background:url('http://a.com/bg.png') no-repeat")
    = Some (js "http://a.com/bg.png").
Proof.
  apply (style_url_of_reference (js "color:red;background:") (js "http://a.com/bg.png")
           (js " no-repeat")).
  - vm_compute. reflexivity.
  - apply Forall_forall. intros c Hc.
    apply (bool_decide_eq_true_1 (c ≠ 41%N ∧ c ≠ 39%N)).
    revert c Hc. apply Forall_forall. repeat constructor.
Defined.

(** X11. A style whose first [url(] is followed by a double quote adds
    nothing to the manifest: the reference taken begins with the quote and
    is no [http] URL. *)
Theorem double_quoted_style_url_is_skipped (styleUrls : list (list N)) (pre rest : list N) :
  first_at_end (js "url(") pre →
  push_style styleUrls (pre ++ js "url(" ++ 34%N :: rest) = styleUrls.
Proof.
  intros Hpre. unfold push_style. rewrite style_url_skip by done.
  change (js "url(" ++ ?x) with (117%N :: 114%N :: 108%N :: 40%N :: x).
  rewrite style_url_cons. simpl starts_with. cbv beta iota zeta. cbn [drop].
  rewrite ?drop_0. change (34 =? 39)%N with false. cbv iota.
  change (span ?p (34%N :: rest))
    with (let '(a, b) := span p rest in (34%N :: a, b)).
  destruct (span _ rest) as [a b]. cbn [fst].
  assert (isHttpUrl (34%N :: a) = false) as -> by reflexivity.
  by rewrite andb_false_r.
Qed.

Lemma double_quoted_style_url_is_skipped_witness :
  first_at_end (js "url(") (js "background:")
  ∧ push_style [js "http://a.com/x.png"]
      (js "background:" ++ js "url(" ++ 34%N :: js "http://a.com/bg.png" ++ 34%N :: js ")")
    = [js "http://a.com/x.png"].
Proof.
  assert (first_at_end (js "url(") (js "background:")) as H by (vm_compute; reflexivity).
  split; [exact H|].
  exact (double_quoted_style_url_is_skipped _ (js "background:") _ H).
Defined.

End ExportFacts.

(** ** The outcome of a submission *)

Module SubmissionFacts.
Import JS Filemanager UploadFacts Outcome.

(** *** The asset map *)

Lemma imageToFields_kept fs file fs' :
  kept file → imageToFields fs file = Some fs' →
  fs' = Fields (form fs) (Some (<[asset_key file := name file]> (default ∅ (assets fs))))
          (markup fs).
Proof.
  intros [Hs Hn]. unfold imageToFields. apply N.eqb_neq in Hs. rewrite Hs.
  rewrite (bool_decide_eq_false_2 _ Hn). fold (asset_key file).
  destruct (assets fs) as [m|]; [by intros [= <-]|].
  destruct (form fs !! js "assets") as [[|? ?]|]; [|done|]; by intros [= <-].
Qed.

Lemma imageToFields_dropped fs file : ¬ kept file → imageToFields fs file = Some fs.
Proof.
  intros Hk. unfold imageToFields. destruct (N.eqb_spec (size file) 0); [done|].
  case_bool_decide; [done|]. by destruct Hk.
Qed.

Lemma kept_dec file : kept file ∨ ¬ kept file.
Proof.
  unfold kept. destruct (decide (size file = 0%N)); [right; tauto|].
  destruct (decide (name file = [])); [right; tauto | by left].
Qed.

Lemma images_forEach_snoc fs files file :
  images_forEach fs (files ++ [file])
  = fs1 ← images_forEach fs files; imageToFields fs1 file.
Proof. unfold images_forEach. by rewrite foldl_app. Qed.

Lemma images_forEach_failed files :
  foldl (λ acc file, fs ← acc; imageToFields fs file) None files = None.
Proof. induction files as [|f l IH]; [done|]. simpl. apply IH. Qed.

Lemma images_forEach_cons fs file files :
  images_forEach fs (file :: files)
  = fs1 ← imageToFields fs file; images_forEach fs1 files.
Proof.
  unfold images_forEach. simpl. destruct (imageToFields fs file); [done|].
  apply images_forEach_failed.
Qed.

(** Once the asset map is there the assignments go through. *)
Lemma imageToFields_assets fs file :
  is_Some (assets fs) →
  ∃ fs', imageToFields fs file = Some fs' ∧ is_Some (assets fs').
Proof.
  intros [m Hm]. unfold imageToFields. destruct (_ =? _)%N; [by eauto|].
  case_bool_decide; [by eauto|]. rewrite Hm. by eauto.
Qed.

Lemma images_forEach_assets files : ∀ fs,
  is_Some (assets fs) →
  ∃ fs', images_forEach fs files = Some fs' ∧ is_Some (assets fs').
Proof.
  induction files as [|f l IH]; intros fs Hfs; [by exists fs|].
  rewrite images_forEach_cons.
  destruct (imageToFields_assets fs f Hfs) as (fs1 & -> & H1). simpl. by apply IH.
Qed.

(** The form has no field [assets], or an empty one: no assignment
    throws. *)
Lemma images_forEach_Some files : ∀ fs,
  (∀ c t, form fs !! js "assets" ≠ Some (c :: t)) →
  is_Some (images_forEach fs files).
Proof.
  induction files as [|f l IH]; intros fs Hfs; [by eexists|].
  rewrite images_forEach_cons.
  destruct (kept_dec f) as [Hf|Hf].
  - assert (∃ fs1, imageToFields fs f = Some fs1 ∧ is_Some (assets fs1)) as (fs1 & -> & H1).
    { destruct Hf as [Hs Hn]. unfold imageToFields. apply N.eqb_neq in Hs. rewrite Hs.
      rewrite (bool_decide_eq_false_2 _ Hn).
      destruct (assets fs) as [m|]; [by eauto|].
      destruct (form fs !! js "assets") as [[|c t]|] eqn:E; [by eauto| |by eauto].
      by destruct (Hfs c t). }
    simpl. destruct (images_forEach_assets l fs1 H1) as (fs2 & -> & _). by eexists.
  - rewrite imageToFields_dropped by done. simpl. by apply IH.
Qed.

(** On a form with a field [assets] that holds a text, the first file
    [imageToFields] keeps makes it throw. *)
Lemma images_forEach_throws ff c t files f :
  ff !! js "assets" = Some (c :: t) → f ∈ files → kept f →
  images_forEach (Fields ff None None) files = None.
Proof.
  intros Hff Hin Hf. induction files as [|g l IH]; [by apply elem_of_nil in Hin|].
  rewrite images_forEach_cons.
  destruct (kept_dec g) as [Hg|Hg].
  - destruct Hg as [Hs Hn]. unfold imageToFields. apply N.eqb_neq in Hs. rewrite Hs.
    rewrite (bool_decide_eq_false_2 _ Hn). simpl. by rewrite Hff.
  - rewrite imageToFields_dropped by done. simpl.
    apply elem_of_cons in Hin as [->|Hin]; [done|]. by apply IH.
Qed.

(** X16. The asset map after [imageToFields] went over the files: every
    entry was there before or maps the key of a file that is neither empty
    nor nameless to its name; and a kept file after which no kept file has
    the same key is found under its key. *)
Theorem asset_map_entries (fs : fields) (files : list File) (fs' : fields)
    (m : gmap (list N) (list N)) :
  images_forEach fs files = Some fs' → assets fs' = Some m →
  (∀ k v, m !! k = Some v →
     (∃ m0, assets fs = Some m0 ∧ m0 !! k = Some v)
     ∨ ∃ f, f ∈ files ∧ kept f ∧ asset_key f = k ∧ name f = v)
  ∧ (∀ before f after,
       files = before ++ f :: after → kept f →
       Forall (λ g, kept g → asset_key g ≠ asset_key f) after →
       m !! asset_key f = Some (name f)).
Proof.
  revert fs' m. induction files as [|g files IH] using rev_ind; intros fs' m Hrun Hm.
  - injection Hrun as <-. split.
    + intros k v Hk. left. by exists m.
    + intros before f after E. by destruct before.
  - rewrite images_forEach_snoc in Hrun.
    destruct (images_forEach fs files) as [fs1|] eqn:E1; [|done]. simpl in Hrun.
    destruct (kept_dec g) as [Hg|Hg].
    + apply imageToFields_kept in Hrun; [|done]. subst fs'. simpl in Hm. simplify_eq.
      split.
      * intros k v Hk. destruct (decide (asset_key g = k)) as [<-|Hne].
        -- rewrite lookup_insert_eq in Hk. simplify_eq. right. exists g.
           split; [apply elem_of_app; right; left|done].
        -- rewrite lookup_insert_ne in Hk by done.
           destruct (assets fs1) as [m'|] eqn:E.
           ++ destruct (IH fs1 m' eq_refl E) as [IH1 _].
              destruct (IH1 k v Hk) as [?|(f & Hf & ?)]; [by left|].
              right. exists f. split; [apply elem_of_app; by left|done].
           ++ simpl in Hk. by rewrite lookup_empty in Hk.
      * intros before f after E Hf Hafter.
        destruct after as [|a after _] using rev_ind.
        -- apply app_inj_tail in E as [_ <-]. by rewrite lookup_insert_eq.
        -- rewrite app_comm_cons, app_assoc in E. apply app_inj_tail in E as [-> <-].
           apply Forall_app in Hafter as [Hafter Ha]. apply Forall_cons in Ha as [Ha _].
           rewrite lookup_insert_ne by by apply Ha.
           destruct (assets fs1) as [m'|] eqn:E.
           ++ destruct (IH fs1 m' eq_refl E) as [_ IH2]. by apply (IH2 before f after).
           ++ exfalso. clear -E E1 Hf.
              unfold images_forEach in E1. rewrite foldl_app in E1. simpl in E1.
              fold (images_forEach fs before) in E1.
              destruct (images_forEach fs before) as [fs0|]; simpl in E1;
                [|by rewrite images_forEach_failed in E1].
              destruct (imageToFields fs0 f) as [fs2|] eqn:E2; simpl in E1;
                [|by rewrite images_forEach_failed in E1].
              apply imageToFields_kept in E2; [|done].
              destruct (images_forEach_assets after fs2) as (fs3 & E3 & [m3 Hm3]);
                [subst fs2; by eexists|].
              unfold images_forEach in E3. rewrite E3 in E1. congruence.
    + rewrite imageToFields_dropped in Hrun by done. injection Hrun as <-.
      destruct (IH fs1 m eq_refl Hm) as [IH1 IH2]. split.
      * intros k v Hk. destruct (IH1 k v Hk) as [?|(f & Hf & ?)]; [by left|].
        right. exists f. split; [apply elem_of_app; by left|done].
      * intros before f after E Hf Hafter.
        destruct after as [|a after _] using rev_ind.
        -- apply app_inj_tail in E as [_ <-]. done.
        -- rewrite app_comm_cons, app_assoc in E. apply app_inj_tail in E as [-> <-].
           apply Forall_app in Hafter as [Hafter _]. by apply (IH2 before f after).
Qed.

Lemma asset_map_entries_witness :
  let files := [Fixtures.preview; Fixtures.hollow; Fixtures.preview_again] in
  let m := <[js "preview.png" := js "tpl-6.png"]>
             (<[js "preview.png" := js "tpl-16E.png"]> ∅) in
  images_forEach (Fields ∅ None None) files = Some (Fields ∅ (Some m) None)
  ∧ (∀ k v, m !! k = Some v →
       (∃ m0, assets (Fields ∅ None None) = Some m0 ∧ m0 !! k = Some v)
       ∨ ∃ f, f ∈ files ∧ kept f ∧ asset_key f = k ∧ name f = v)
  ∧ m !! js "preview.png" = Some (js "tpl-6.png").
Proof.
  intros files m.
  assert (images_forEach (Fields ∅ None None) files = Some (Fields ∅ (Some m) None))
    as Hrun by (vm_compute; reflexivity).
  split; [exact Hrun|].
  destruct (asset_map_entries (Fields ∅ None None) files _ m Hrun eq_refl) as [H1 H2].
  split; [exact H1|].
  apply (H2 [Fixtures.preview; Fixtures.hollow] Fixtures.preview_again []).
  - reflexivity.
  - split; discriminate.
  - constructor.
Defined.

(** *** The promise of a submission *)

Section Upload.
Variable slugFilename : list N → list N.
Variable extname : list N → list N.
Variable mime_extension : list N → option (list N).
Variable md5 : list N → list N.

Local Abbreviation handle := (handle slugFilename extname mime_extension md5).
Local Abbreviation step := (step slugFilename extname mime_extension md5).
Local Abbreviation run := (run slugFilename extname mime_extension md5).

Lemma formatter_effect_files opts fs st s0 :
  files st = files s0 → formatter_effect opts fs st = formatter_effect opts fs s0.
Proof. intros E. unfold formatter_effect, files_named. by rewrite E. Qed.

(** The reactions of the join on a waiting state. *)
Lemma react_waiting opts fs s0 st :
  joined st = Waiting fs → ended st = true → deferred st = Pending →
  reading st = None → files st = files s0 →
  after_parse opts fs s0 (react opts st).
Proof.
  intros Ej Ee Ed Er Ef. unfold react. rewrite Ej.
  destruct (first_rejected (uploads st)) as [e|] eqn:Efr.
  - unfold settle_deferred, set_joined. simpl. rewrite Ed. simpl.
    split; [done|]. split; [done|]. right. left. split; [done|]. split; [done|].
    exists e. split; [done|]. by apply first_rejected_Some in Efr.
  - destruct (forallb is_fulfilled (uploads st)) eqn:Ea.
    + apply forallb_fulfilled in Ea.
      unfold after_parse.
      rewrite <- (formatter_effect_files opts fs st s0 Ef).
      unfold formatter_effect.
      destruct (format opts).
      * unfold handleEditorUpload.
        change (files_named (js "files[]") (set_joined Done st))
          with (files_named (js "files[]") st).
        destruct (files_named _ _) as [|f [|? ?]];
          unfold settle_deferred, set_joined; simpl; rewrite Ed; simpl;
          (split; [done|]); (split; [done|]); right; right; by split_and!.
      * unfold handleTemplatesUploads.
        change (files_named (js "markup") (set_joined Done st))
          with (files_named (js "markup") st).
        change (files_named (js "images") (set_joined Done st))
          with (files_named (js "images") st).
        destruct (images_forEach fs (files_named (js "images") st)) as [fs'|].
        2:{ unfold settle_deferred, set_joined; simpl; rewrite Ed; simpl.
            (split; [done|]); (split; [done|]); right; right; by split_and!. }
        destruct (files_named (js "markup") st) as [|m [|? ?]].
        -- unfold settle_deferred, set_joined; simpl; rewrite Ed; simpl.
           (split; [done|]); (split; [done|]); right; right; by split_and!.
        -- destruct (bool_decide (name m ≠ [])).
           ++ simpl. (split; [done|]); (split; [done|]); right; right.
              split; [done|]. split; [done|]. left. by rewrite Ed.
           ++ unfold settle_deferred, set_joined; simpl; rewrite Ed; simpl.
              (split; [done|]); (split; [done|]); right; right; by split_and!.
        -- unfold settle_deferred, set_joined; simpl; rewrite Ed; simpl.
           (split; [done|]); (split; [done|]); right; right; by split_and!.
    + split; [done|]. split; [done|]. left. by split_and!.
Qed.

Lemma react_done opts st : joined st = Done → react opts st = st.
Proof. intros E. unfold react. by rewrite E. Qed.

Lemma step_after_parse opts fs s0 st ev :
  after_parse opts fs s0 st → after_parse opts fs s0 (step opts st ev).
Proof.
  intros (Hf & He & H). unfold Filemanager.step.
  destruct H as [(Hj & Hd & Hr & _) | [(Hj & Hr & e & Hd & u & Hu & Hrej) | (Hj & Hall & Heff)]].
  - apply react_waiting;
      destruct ev as [p|k failure|err ff|text]; cbn [Filemanager.handle];
      rewrite ?He, ?Hr; done.
  - rewrite react_done;
      [|destruct ev as [p|k failure|err ff|text]; cbn [Filemanager.handle];
        rewrite ?He, ?Hr; done].
    destruct ev as [p|k failure|err ff|text]; cbn [Filemanager.handle];
      rewrite ?He, ?Hr.
    2: { split; [done|]. split; [done|]. right. left. simpl.
         split; [done|]. split; [done|]. exists e. split; [done|]. exists u.
         split; [|done]. simpl. apply alter_keeps; [done|].
         apply settle_write_fixed. by rewrite Hrej. }
    all: split; [done|]; split; [done|]; right; left; split; [done|]; split; [done|];
      exists e; split; [done|]; by exists u.
  - rewrite react_done.
    2: { destruct ev as [p|k failure|err ff|text]; cbn [Filemanager.handle];
         rewrite ?He; try done.
         destruct (reading st); [|done]. unfold settle_deferred. simpl.
         by destruct (deferred st). }
    destruct ev as [p|k failure|err ff|text]; cbn [Filemanager.handle];
      rewrite ?He.
    + split; [done|]. split; [done|]. right. right. by split_and!.
    + split; [done|]. split; [done|]. right. right. simpl. split; [done|].
      split; [|done]. unfold all_fulfilled in *. simpl. apply Forall_alter; [done|].
      intros v _ Hv. rewrite settle_write_fixed; [done|]. by rewrite Hv.
    + split; [done|]. split; [done|]. right. right. by split_and!.
    + destruct (reading st) as [fs'|] eqn:Er.
      * destruct (formatter_effect opts fs s0) as [d|fs''] eqn:Efe.
        { destruct Heff as [_ [=]]. }
        destruct Heff as [[Hd Hr]|[Hr _]]; [|congruence].
        simplify_eq. unfold settle_deferred. simpl. rewrite Hd. simpl.
        split; [done|]. split; [done|]. right. right. split; [done|].
        split; [done|]. rewrite Efe. right. split; [done|]. by exists text.
      * split; [done|]. split; [done|]. right. right. split; [done|].
        split; [done|]. by rewrite Er.
Qed.

Lemma foldl_after_parse opts fs s0 events : ∀ st,
  after_parse opts fs s0 st → after_parse opts fs s0 (foldl (step opts) st events).
Proof.
  induction events as [|ev l IH]; intros st H; [done|].
  simpl. by apply IH, step_after_parse.
Qed.

(** The outcome of a submission whose parse succeeds. *)
Lemma run_after_parse opts pre ff post :
  Forall not_parse_end pre →
  after_parse opts (Fields ff None None) (run opts pre)
    (run opts (pre ++ ParseEnd None ff :: post)).
Proof.
  intros Hpre. rewrite run_app. simpl. apply foldl_after_parse.
  destruct (before_end slugFilename extname mime_extension md5 opts pre Hpre) as (He & Hj & Hr & Hd).
  unfold Filemanager.step. cbn [Filemanager.handle]. rewrite He.
  by apply react_waiting.
Qed.

Lemma foldl_never_joined opts events : ∀ st,
  joined st = NotStarted → ended st = true → reading st = None →
  joined (foldl (step opts) st events) = NotStarted.
Proof.
  induction events as [|ev l IH]; intros s Hj He Hr; [done|].
  simpl.
  assert (handle opts ev s = s ∨ ∃ k failure,
    handle opts ev s = UploadState (files s) (alter (settle_write failure) k (uploads s))
      (warnings s) (ended s) (joined s) (reading s) (deferred s)) as Hh.
  { destruct ev as [p|k failure|err ff|text]; cbn [Filemanager.handle];
      rewrite ?He, ?Hr; eauto. }
  unfold Filemanager.step at 2.
  destruct Hh as [->|(k & failure & ->)].
  - unfold react. rewrite Hj. by apply IH.
  - unfold react. simpl. rewrite Hj. by apply IH.
Qed.

(** X12. When the parse of the form fails, the promise is rejected with
    the error of the parse whatever the writes do, before or after, and the
    formatter never runs: the join over the writes is not started. *)
Theorem parse_error_rejects opts pre code ff post :
  Forall not_parse_end pre →
  let st := run opts (pre ++ ParseEnd (Some code) ff :: post) in
  deferred st = Rejected (ParseFailed code) ∧ joined st = NotStarted.
Proof.
  intros Hpre st. subst st. rewrite run_app. simpl.
  destruct (before_end slugFilename extname mime_extension md5 opts pre Hpre) as (He & Hj & Hr & Hd).
  set (s1 := step opts (run opts pre) (ParseEnd (Some code) ff)).
  assert (deferred s1 = Rejected (ParseFailed code) ∧ joined s1 = NotStarted
          ∧ ended s1 = true ∧ reading s1 = None) as (Hd1 & Hj1 & He1 & Hr1).
  { subst s1. unfold Filemanager.step. cbn [Filemanager.handle]. rewrite He.
    unfold settle_deferred. simpl. rewrite Hd. unfold react. simpl. by rewrite Hj. }
  split.
  - rewrite foldl_deferred_settled; [done|]. by rewrite Hd1.
  - by apply foldl_never_joined.
Qed.

(** X13. With the [groups] formatter, a parse that succeeds, every write
    fulfilled and no single named [markup] file, the promise is fulfilled
    with the fields of the form and the asset map of the [images] files,
    unless [imageToFields] throws, which rejects it with the type error; it
    does not throw when the form has no field [assets] or an empty one. *)
Theorem groups_result opts pre ff post :
  Forall not_parse_end pre →
  format opts = groups →
  let s0 := run opts pre in
  let st := run opts (pre ++ ParseEnd None ff :: post) in
  all_fulfilled st →
  (∀ m, files_named (js "markup") s0 = [m] → name m = []) →
  deferred st
  = match images_forEach (Fields ff None None) (files_named (js "images") s0) with
    | Some fs => Fulfilled (GroupsResult fs)
    | None => Rejected ThrownTypeError
    end
  ∧ ((∀ c t, ff !! js "assets" ≠ Some (c :: t)) →
     ∃ fs, images_forEach (Fields ff None None) (files_named (js "images") s0) = Some fs
           ∧ deferred st = Fulfilled (GroupsResult fs))
  ∧ (∀ c t f, ff !! js "assets" = Some (c :: t) →
       f ∈ files_named (js "images") s0 → kept f →
       deferred st = Rejected ThrownTypeError).
Proof.
  intros Hpre Hfmt s0 st Hall Hm.
  assert (deferred st
          = match images_forEach (Fields ff None None) (files_named (js "images") s0) with
            | Some fs => Fulfilled (GroupsResult fs)
            | None => Rejected ThrownTypeError
            end) as Hd.
  { destruct (run_after_parse opts pre ff post Hpre) as (_ & _ & H).
    fold st s0 in H.
    destruct H as [(_ & _ & _ & _ & Hn) | [(_ & _ & e & _ & u & Hu & Hrej) | (_ & _ & Heff)]].
    - apply forallb_fulfilled in Hall. congruence.
    - unfold all_fulfilled in Hall. rewrite Forall_forall in Hall.
      specialize (Hall u Hu). congruence.
    - unfold formatter_effect in Heff. rewrite Hfmt in Heff.
      destruct (images_forEach _ _) as [fs|]; [|by destruct Heff].
      destruct (files_named (js "markup") s0) as [|m [|? ?]] eqn:Em;
        [by destruct Heff| |by destruct Heff].
      rewrite bool_decide_eq_false_2 in Heff; [by destruct Heff|].
      intros Hne. by apply Hne, Hm. }
  split_and!; [exact Hd| |].
  - intros Hff.
    destruct (images_forEach_Some (files_named (js "images") s0) (Fields ff None None) Hff)
      as [fs Hfs].
    exists fs. split; [done|]. by rewrite Hd, Hfs.
  - intros c t f Hff Hin Hf.
    by rewrite Hd, (images_forEach_throws ff c t _ f Hff Hin Hf).
Qed.

(** X14. With the [editor] formatter, a parse that succeeds and every
    write fulfilled, the promise is rejected with the type error when the
    form has no [files[]] part, and fulfilled with the name of the file when
    it has one. *)
Theorem editor_result opts pre ff post :
  Forall not_parse_end pre →
  format opts = editor →
  let s0 := run opts pre in
  let st := run opts (pre ++ ParseEnd None ff :: post) in
  all_fulfilled st →
  (files_named (js "files[]") s0 = [] → deferred st = Rejected ThrownTypeError)
  ∧ (∀ f, files_named (js "files[]") s0 = [f] →
       deferred st = Fulfilled (EditorResult [Some (name f)])).
Proof.
  intros Hpre Hfmt s0 st Hall.
  destruct (run_after_parse opts pre ff post Hpre) as (_ & _ & H).
  fold st s0 in H.
  destruct H as [(_ & _ & _ & _ & Hn) | [(_ & _ & e & _ & u & Hu & Hrej) | (_ & _ & Heff)]].
  - apply forallb_fulfilled in Hall. congruence.
  - unfold all_fulfilled in Hall. rewrite Forall_forall in Hall.
    specialize (Hall u Hu). congruence.
  - unfold formatter_effect in Heff. rewrite Hfmt in Heff.
    destruct (files_named (js "files[]") s0) as [|f [|? ?]] eqn:Em;
      destruct Heff as [Hd _]; split; try done.
    intros ? [= <-]. done.
Qed.

(** X15. With the [groups] formatter and a single named [markup] file,
    once the writes are fulfilled and [imageToFields] has gone over the
    [images] files without throwing, the promise is still pending until the
    file is read; it is then fulfilled with the same fields and asset map
    and the text read as markup.  If [imageToFields] throws the promise is
    rejected with the type error and nothing is read. *)
Theorem markup_is_read opts pre ff post m :
  Forall not_parse_end pre →
  format opts = groups →
  let s0 := run opts pre in
  let st := run opts (pre ++ ParseEnd None ff :: post) in
  all_fulfilled st →
  files_named (js "markup") s0 = [m] → name m ≠ [] →
  match images_forEach (Fields ff None None) (files_named (js "images") s0) with
  | Some fs =>
      (deferred st = Pending
       ∧ ∀ text, deferred (step opts st (ReadFileDone text))
                 = Fulfilled (GroupsResult (with_markup fs text)))
      ∨ (∃ text, deferred st = Fulfilled (GroupsResult (with_markup fs text)))
  | None => deferred st = Rejected ThrownTypeError ∧ reading st = None
  end.
Proof.
  intros Hpre Hfmt s0 st Hall Em Hm.
  destruct (run_after_parse opts pre ff post Hpre) as (_ & _ & H).
  fold st s0 in H.
  destruct H as [(_ & _ & _ & _ & Hn) | [(_ & _ & e & _ & u & Hu & Hrej) | (Hj & _ & Heff)]].
  - apply forallb_fulfilled in Hall. congruence.
  - unfold all_fulfilled in Hall. rewrite Forall_forall in Hall.
    specialize (Hall u Hu). congruence.
  - unfold formatter_effect in Heff. rewrite Hfmt in Heff.
    destruct (images_forEach _ _) as [fs|]; [|exact Heff].
    rewrite Em in Heff. rewrite (bool_decide_eq_true_2 _ Hm) in Heff.
    destruct Heff as [[Hd Hr]|[_ Hd]]; [left|by right].
    split; [done|]. intros text.
    unfold Filemanager.step. cbn [Filemanager.handle]. rewrite Hr.
    rewrite react_done.
    + unfold settle_deferred. simpl. by rewrite Hd.
    + unfold settle_deferred. simpl. by rewrite Hd.
Qed.

(** *** The writes of a submission *)

Lemma size_incoming p : size (incoming md5 p) ≠ 0%N → content p ≠ [].
Proof. intros H E. apply H. simpl. by rewrite E. Qed.

Lemma onFile_stored_file opts p f :
  onFile slugFilename extname mime_extension opts (field p) (incoming md5 p) = Stored f →
  written_from mime_extension md5 opts f p.
Proof.
  intros H. pose proof (onFile_Stored _ _ _ _ _ _ _ H) as Hn.
  unfold onFile in H.
  destruct (N.eqb_spec (size (incoming md5 p)) 0) as [|Hs]; [done|].
  case_bool_decide as Hf; [done|].
  destruct (remove_first _ _); [done|]. simplify_eq.
  split_and!; [by apply size_incoming|done|done|exact Hn].
Qed.

Lemma elem_of_alter_settle failure k (us : list (File * promise ())) u :
  u ∈ alter (settle_write failure) k us → ∃ u', u' ∈ us ∧ u'.1 = u.1.
Proof.
  revert k. induction us as [|v us IH]; intros k;
    [destruct k; simpl; by intros ?%elem_of_nil|].
  destruct k as [|k]; simpl.
  - intros [->|Hu]%elem_of_cons.
    + exists v. split; [left|]. unfold settle_write. by destruct (v.2).
    + exists u. split; [by right|done].
  - intros [->|Hu]%elem_of_cons.
    + exists v. split; [left|done].
    + destruct (IH k Hu) as (u' & ? & ?). exists u'. split; [by right|done].
Qed.

Lemma handle_uploads opts ev st u :
  u ∈ uploads (handle opts ev st) →
  (∃ u', u' ∈ uploads st ∧ u'.1 = u.1)
  ∨ ∃ p, ev = FileEvent p ∧ written_from mime_extension md5 opts u.1 p.
Proof.
  destruct ev as [p|k failure|err ff|text]; cbn [Filemanager.handle].
  - destruct (ended st); [intros; left; by exists u|].
    destruct (onFile _ _ _ _ _ _) as [|n|f] eqn:Eo; simpl;
      [intros; left; by exists u..|].
    intros [Hu|Hu%list_elem_of_singleton]%elem_of_app; [left; by exists u|].
    right. exists p. split; [done|]. subst u. by apply onFile_stored_file.
  - simpl. intros Hu. left. by apply elem_of_alter_settle in Hu.
  - destruct (ended st); [intros; left; by exists u|].
    destruct err; [|intros; left; by exists u].
    destruct (settle_deferred_fields (Rejected (ParseFailed n))
      (UploadState (files st) (uploads st) (warnings st) true (joined st)
         (reading st) (deferred st))) as (_ & -> & _).
    intros; left; by exists u.
  - destruct (reading st); [|intros; left; by exists u].
    match goal with |- context [settle_deferred ?r ?s] =>
      destruct (settle_deferred_fields r s) as (_ & -> & _) end.
    intros; left; by exists u.
Qed.

(** X17. Every write a submission starts is that of a part of the form
    which is not empty and is not the markup; the file is written from the
    temporary file of the part, under the prefix, the digest of its bytes and
    the extension of its MIME type. *)
Theorem writes_are_hashed_parts opts events (u : File * promise ()) :
  u ∈ uploads (run opts events) →
  ∃ p, FileEvent p ∈ events ∧ written_from mime_extension md5 opts u.1 p.
Proof.
  revert u. induction events as [|ev events IH] using rev_ind; intros u Hu.
  - by apply elem_of_nil in Hu.
  - rewrite run_snoc in Hu. unfold Filemanager.step in Hu.
    destruct (react_fields opts (handle opts ev (run opts events))) as (Eu & _).
    rewrite Eu in Hu. apply handle_uploads in Hu as [(u' & Hu' & E)|(p & -> & Hw)].
    + destruct (IH u' Hu') as (p & Hp & Hw). exists p.
      split; [apply elem_of_app; by left|]. by rewrite <- E.
    + exists p. split; [apply elem_of_app; right; left|done].
Qed.

(** X18. Before the end of the parse, the files collected are those of
    the parts in the order of their arrival, each under the name of its field,
    and the writes started are those of the parts [onFile] stores, in the
    same order: the settling of a write changes neither. *)
Theorem files_and_writes_follow_parts opts pre :
  Forall not_parse_end pre →
  files (run opts pre)
  = collected slugFilename extname mime_extension md5 opts <$> parts pre
  ∧ (fst <$> uploads (run opts pre))
    = omap (stored_file slugFilename extname mime_extension md5 opts) (parts pre).
Proof.
  induction pre as [|ev pre IH] using rev_ind; intros Hpre; [done|].
  apply Forall_app in Hpre as [Hpre Hev]. apply Forall_cons in Hev as [Hev _].
  destruct (IH Hpre) as [IHf IHu].
  destruct (before_end slugFilename extname mime_extension md5 opts pre Hpre) as (He & Hj & Hr & Hd).
  rewrite run_snoc. unfold Filemanager.step.
  assert (joined (handle opts ev (run opts pre)) = NotStarted) as Hj'.
  { destruct ev as [p|k failure|err ff|text]; cbn [Filemanager.handle];
      rewrite ?He, ?Hr; [|done| |done].
    - by destruct (onFile _ _ _ _ _ _).
    - by destruct (Hev err ff). }
  destruct (react_fields opts (handle opts ev (run opts pre))) as (_ & _ & _ & Hre & _).
  rewrite (Hre Hj'). clear Hre Hj'.
  assert (parts (pre ++ [ev])
          = parts pre ++ match ev with FileEvent p => [p] | _ => [] end) as ->.
  { unfold parts. rewrite omap_app. by destruct ev. }
  rewrite fmap_app, omap_app.
  destruct ev as [p|k failure|err ff|text]; cbn [Filemanager.handle];
    rewrite ?He, ?Hr.
  - assert (collected slugFilename extname mime_extension md5 opts <$> [p]
            = [collected slugFilename extname mime_extension md5 opts p]) as -> by done.
    assert (omap (stored_file slugFilename extname mime_extension md5 opts) [p]
            = option_list (stored_file slugFilename extname mime_extension md5 opts p))
      as -> by (simpl; by destruct (stored_file _ _ _ _ _ _)).
    set (o := onFile slugFilename extname mime_extension opts (field p) (incoming md5 p)).
    assert (stored_file slugFilename extname mime_extension md5 opts p
            = match o with Stored f => Some f | _ => None end) as Es by done.
    assert (collected slugFilename extname mime_extension md5 opts p
            = (field p, default (incoming md5 p)
                          (stored_file slugFilename extname mime_extension md5 opts p)))
      as Ec by done.
    rewrite Ec, Es.
    destruct o as [|n|f]; simpl; rewrite ?fmap_app, ?IHf, ?IHu, ?app_nil_r; done.
  - simpl. rewrite !app_nil_r. split; [done|]. rewrite <- IHu.
    generalize (uploads (run opts pre)). clear. intros us. revert k.
    induction us as [|v us IH]; intros [|k]; simpl; try done.
    + f_equal. unfold settle_write. by destruct (v.2).
    + f_equal. apply IH.
  - by destruct (Hev err ff).
  - simpl. by rewrite !app_nil_r.
Qed.

End Upload.

Local Abbreviation sample_run :=
  (Filemanager.run Sample.slugFilename Sample.extname Sample.mime_extension Sample.digest).
Local Abbreviation sample_step :=
  (Filemanager.step Sample.slugFilename Sample.extname Sample.mime_extension Sample.digest).

Lemma sample_not_parse_end_file p : not_parse_end (FileEvent p).
Proof. by intros ? ?. Qed.

Lemma sample_not_parse_end_write k failure : not_parse_end (WriteSettled k failure).
Proof. by intros ? ?. Qed.

Lemma parse_error_rejects_witness :
  let pre := [FileEvent Sample.logo; WriteSettled 0 None] in
  let post := [FileEvent Sample.blob; WriteSettled 0 (Some 3%N)] in
  let st := sample_run Sample.template (pre ++ ParseEnd (Some 7%N) ∅ :: post) in
  Forall not_parse_end pre
  ∧ deferred st = Rejected (ParseFailed 7) ∧ joined st = NotStarted.
Proof.
  intros pre post st.
  assert (Forall not_parse_end pre) as H.
  { repeat (constructor; [by intros ? ?|]). constructor. }
  split; [exact H|].
  exact (parse_error_rejects Sample.slugFilename Sample.extname Sample.mime_extension
           Sample.digest Sample.template pre 7%N ∅ post H).
Defined.

Lemma groups_result_witness :
  let pre := [FileEvent Sample.logo; FileEvent Sample.empty_file] in
  let post := [WriteSettled 0 None] in
  let s0 := sample_run Sample.template pre in
  let st := sample_run Sample.template (pre ++ ParseEnd None ∅ :: post) in
  let ff := <[js "assets" := js "x"]> ∅ in
  let st' := sample_run Sample.template (pre ++ ParseEnd None ff :: post) in
  Forall not_parse_end pre
  ∧ all_fulfilled st ∧ all_fulfilled st'
  ∧ deferred st
    = Fulfilled (GroupsResult
        (Fields ∅ (Some (<[js "logo.png" := js "tpl-16E.png"]> ∅)) None))
  ∧ deferred st' = Rejected ThrownTypeError.
Proof.
  intros pre post s0 st ff st'.
  assert (Forall not_parse_end pre) as H.
  { repeat (constructor; [by intros ? ?|]). constructor. }
  assert (all_fulfilled st) as Hall.
  { apply forallb_fulfilled. vm_compute. reflexivity. }
  assert (all_fulfilled st') as Hall'.
  { apply forallb_fulfilled. vm_compute. reflexivity. }
  assert (∀ m, files_named (js "markup") s0 = [m] → name m = []) as Hm.
  { intros m Hm. vm_compute in Hm. discriminate. }
  split; [exact H|]. split; [exact Hall|]. split; [exact Hall'|].
  destruct (groups_result Sample.slugFilename Sample.extname Sample.mime_extension
              Sample.digest Sample.template pre ∅ post H eq_refl Hall Hm) as (Hd & _ & _).
  destruct (groups_result Sample.slugFilename Sample.extname Sample.mime_extension
              Sample.digest Sample.template pre ff post H eq_refl Hall' Hm) as (_ & _ & Hd').
  split.
  - etrans; [exact Hd|]. vm_compute. reflexivity.
  - apply (Hd' 120%N [] (mkFile 4 (js "/tmp/upload_1") (js "tpl-16E.png") (js "image/png")
                           (js "16E") (Some (js "logo.png")))).
    + vm_compute. reflexivity.
    + apply list_elem_of_lookup. exists 0. vm_compute. reflexivity.
    + split; discriminate.
Defined.

Lemma editor_result_witness :
  let pre := [FileEvent Fixtures.photo] in
  let post := [WriteSettled 0 None] in
  let st := sample_run Fixtures.gallery (pre ++ ParseEnd None ∅ :: post) in
  Forall not_parse_end pre
  ∧ all_fulfilled st
  ∧ deferred st = Fulfilled (EditorResult [Some (js "gal-2D6.jpeg")]).
Proof.
  intros pre post st.
  assert (Forall not_parse_end pre) as H.
  { repeat (constructor; [by intros ? ?|]). constructor. }
  assert (all_fulfilled st) as Hall.
  { apply forallb_fulfilled. vm_compute. reflexivity. }
  split; [exact H|]. split; [exact Hall|].
  destruct (editor_result Sample.slugFilename Sample.extname Sample.mime_extension
              Sample.digest Fixtures.gallery pre ∅ post H eq_refl Hall) as (_ & H1).
  apply (H1 (mkFile 3 (js "/tmp/upload_7") (js "gal-2D6.jpeg") (js "image/jpeg")
               (js "2D6") (Some (js "photo.jpeg")))).
  vm_compute. reflexivity.
Defined.

Lemma markup_is_read_witness :
  let pre := [FileEvent Sample.logo; FileEvent Fixtures.markup_part] in
  let post := [WriteSettled 0 None] in
  let s0 := sample_run Sample.template pre in
  let st := sample_run Sample.template (pre ++ ParseEnd None ∅ :: post) in
  let fs := Fields ∅ (Some (<[js "logo.png" := js "tpl-16E.png"]> ∅)) None in
  Forall not_parse_end pre
  ∧ all_fulfilled st
  ∧ files_named (js "markup") s0 = [incoming Sample.digest Fixtures.markup_part]
  ∧ ((deferred st = Pending
      ∧ ∀ text, deferred (sample_step Sample.template st (ReadFileDone text))
                = Fulfilled (GroupsResult (with_markup fs text)))
     ∨ (∃ text, deferred st = Fulfilled (GroupsResult (with_markup fs text)))).
Proof.
  intros pre post s0 st fs.
  assert (Forall not_parse_end pre) as H.
  { repeat (constructor; [by intros ? ?|]). constructor. }
  assert (all_fulfilled st) as Hall.
  { apply forallb_fulfilled. vm_compute. reflexivity. }
  assert (files_named (js "markup") s0 = [incoming Sample.digest Fixtures.markup_part])
    as Hm by (vm_compute; reflexivity).
  assert (images_forEach (Fields ∅ None None) (files_named (js "images") s0) = Some fs)
    as Hfs by (vm_compute; reflexivity).
  split; [exact H|]. split; [exact Hall|]. split; [exact Hm|].
  pose proof (markup_is_read Sample.slugFilename Sample.extname Sample.mime_extension
                Sample.digest Sample.template pre ∅ post _ H eq_refl Hall Hm
                ltac:(discriminate)) as Hread.
  cbv zeta in Hread. unfold s0 in Hfs. rewrite Hfs in Hread. exact Hread.
Defined.

Lemma writes_are_hashed_parts_witness :
  let events := [FileEvent Sample.logo; ParseEnd None ∅; WriteSettled 0 None] in
  let u := (mkFile 4 (js "/tmp/upload_1") (js "tpl-16E.png") (js "image/png") (js "16E")
              (Some (js "logo.png")), Fulfilled ()) in
  u ∈ uploads (sample_run Sample.template events)
  ∧ ∃ p, FileEvent p ∈ events
         ∧ written_from Sample.mime_extension Sample.digest Sample.template u.1 p.
Proof.
  intros events u.
  assert (u ∈ uploads (sample_run Sample.template events)) as H.
  { assert (uploads (sample_run Sample.template events) = [u]) as ->
      by (vm_compute; reflexivity). left. }
  split; [exact H|].
  exact (writes_are_hashed_parts Sample.slugFilename Sample.extname Sample.mime_extension
           Sample.digest Sample.template events u H).
Defined.

Lemma files_and_writes_follow_parts_witness :
  let pre := [FileEvent Sample.empty_file; FileEvent Sample.logo; WriteSettled 0 None;
              FileEvent Fixtures.markup_part] in
  Forall not_parse_end pre
  ∧ files (sample_run Sample.template pre)
    = collected Sample.slugFilename Sample.extname Sample.mime_extension Sample.digest
        Sample.template <$> parts pre
  ∧ (fst <$> uploads (sample_run Sample.template pre))
    = omap (stored_file Sample.slugFilename Sample.extname Sample.mime_extension
              Sample.digest Sample.template) (parts pre).
Proof.
  intros pre.
  assert (Forall not_parse_end pre) as H.
  { repeat (constructor; [by intros ? ?|]). constructor. }
  split; [exact H|].
  exact (files_and_writes_follow_parts Sample.slugFilename Sample.extname
           Sample.mime_extension Sample.digest Sample.template pre H).
Defined.

End SubmissionFacts.
